(** * tgcf live relay: a shallow embedding of [tgcf/live.py]

    The development follows the source top to bottom: configuration
    loading ([_load_config]), chat resolution ([_resolve_chat_id]), the
    sending utilities ([_bucket_kind], [_send_single],
    [_send_album_copy]) and the two event handlers ([on_new_message],
    [on_album]).

    Modelling conventions.
    - A Python [str] is a [string] whose characters stand for the code
      points U+0000..U+00FF; the character tables below are exact on that
      range.
    - Calls on the Telethon client are recorded in a trace of [Op]s.
      Whether a call raises is decided by an arbitrary oracle that sees
      the calls made so far and the call being made.  Only exceptions
      derived from [Exception] are modelled (task cancellation is not).
    - Logging has no effect on control flow and is left out. *)

From Equations Require Import Equations.
From Stdlib Require Import Floats.SpecFloat Ascii.
From Stdlib Require Import DecimalString DecimalPos DecimalZ.
From stdpp Require Import base option list gmap strings.

Set Warnings "-clear-no-such-hyp".

Local Open Scope string_scope.
Local Open Scope list_scope.
Local Open Scope Z_scope.

(** ** Python values produced by [json.load] *)

#[warnings="-register-all"]
Inductive json : Type :=
| JNull
| JBool (b : bool)
| JInt (z : Z)
| JFloat (f : spec_float)
| JStr (s : string)
| JList (l : list json)
| JDict (d : gmap string json).

(** [bool(v)]: the truth value of a Python object. *)
Definition py_bool (v : json) : bool :=
  match v with
  | JNull => false
  | JBool b => b
  | JInt z => negb (z =? 0)
  | JFloat (S754_zero _) => false
  | JFloat _ => true
  | JStr s => negb (String.eqb s "")
  | JList l => match l with [] => false | _ => true end
  | JDict d => negb (bool_decide (size d = 0%nat))
  end.

(** ** Exceptions *)

Inductive PyExn : Type :=
| FileNotFoundError (path : string)
| JSONDecodeError
| AttributeError
| ValueError
| ClientError
| OtherError (name : string).

(** Code that may raise returns [PyExn + A]. *)
#[global] Instance exn_ret : MRet (sum PyExn) := λ A x, inr x.
#[global] Instance exn_bind : MBind (sum PyExn) :=
  λ A B f m, match m with inl e => inl e | inr x => f x end.

(** ** Config *)

Record LiveConfig : Type := mkLiveConfig {
  copy : bool;
  forward : bool;
  from_to : json
}.

(** What [_load_config] meets at [path]: no file ([os.path.exists] is
    false); a file on which [open] or [json.load] raises [e] (a directory,
    a file that cannot be read or decoded, text that is not JSON, ...);
    or a file that [json.load] turns into a value. *)
Inductive FileContent : Type :=
| NoFile
| ReadFails (e : PyExn)
| Json (data : json).

(** [data.get(key, default)]; [data] need not be a dict. *)
Definition py_get (data : json) (key : string) (dflt : json) : PyExn + json :=
  match data with
  | JDict d => inr (default dflt (d !! key))
  | _ => inl AttributeError
  end.

Definition _load_config (fs : string → FileContent) (path : string)
  : PyExn + LiveConfig :=
  match fs path with
  | NoFile => inl (FileNotFoundError path)
  | ReadFails e => inl e
  | Json data =>
      c ← py_get data "copy" (JBool true);
      f ← py_get data "forward" (JBool false);
      m ← py_get data "from_to" (JDict ∅);
      mret (mkLiveConfig (py_bool c) (py_bool f)
              (if py_bool m then m else JDict ∅))
  end.

(** ** Python string methods used by the source *)

Definition ord (c : ascii) : Z := Z.of_N (N_of_ascii c).

(** [c.isspace()] on U+0000..U+00FF. *)
Definition isspace (c : ascii) : bool :=
  let n := ord c in
  ((9 <=? n) && (n <=? 13)) || ((28 <=? n) && (n <=? 32))
  || (n =? 133) || (n =? 160).

(** [c.isdigit()] on U+0000..U+00FF: the ASCII digits and the superscripts
    two, three and one. *)
Definition isdigit_char (c : ascii) : bool :=
  let n := ord c in
  ((48 <=? n) && (n <=? 57)) || (n =? 178) || (n =? 179) || (n =? 185).

(** Decimal digits, the only ones [int] accepts. *)
Definition isdecimal_char (c : ascii) : bool :=
  let n := ord c in (48 <=? n) && (n <=? 57).

Fixpoint lstrip_by (p : ascii → bool) (s : string) : string :=
  match s with
  | EmptyString => EmptyString
  | String c r => if p c then lstrip_by p r else s
  end.

Fixpoint rstrip_by (p : ascii → bool) (s : string) : string :=
  match s with
  | EmptyString => EmptyString
  | String c r =>
      match rstrip_by p r with
      | EmptyString => if p c then EmptyString else String c EmptyString
      | r' => String c r'
      end
  end.

(** [s.strip()] *)
Definition strip (s : string) : string := rstrip_by isspace (lstrip_by isspace s).

(** [s.lstrip(chars)] *)
Definition lstrip (chars : string) (s : string) : string :=
  lstrip_by (λ c, bool_decide (c ∈ String.list_ascii_of_string chars)) s.

(** [s.startswith(p)] *)
Definition startswith (s p : string) : bool := String.prefix p s.

(** [s.isdigit()] *)
Definition isdigit (s : string) : bool :=
  match s with
  | EmptyString => false
  | _ => forallb isdigit_char (String.list_ascii_of_string s)
  end.

(** The digits of an [int] literal in base 10: decimal digits, with single
    underscores allowed between two digits.  [prev] tells whether the
    character just read was a digit. *)
Fixpoint int_digits (s : string) (acc : Z) (prev : bool) : option Z :=
  match s with
  | EmptyString => if prev then Some acc else None
  | String c r =>
      if isdecimal_char c then int_digits r (acc * 10 + (ord c - 48)) true
      else if Ascii.eqb c "_"%char then
        (if prev then int_digits r acc false else None)
      else None
  end.

(** The whitespace [int] skips around a numeral, on U+0000..U+00FF: the
    ASCII blanks and the two non-ASCII spaces (U+001C..U+001F, which
    [str.strip] removes, are not among them). *)
Definition isspace_int (c : ascii) : bool :=
  let n := ord c in
  ((9 <=? n) && (n <=? 13)) || (n =? 32) || (n =? 133) || (n =? 160).

(** [sys.get_int_max_str_digits()], at its default. *)
Definition int_max_str_digits : nat := 4300.

(** The number of digit characters of [s]. *)
Fixpoint digit_count (s : string) : nat :=
  match s with
  | EmptyString => O
  | String c r => if isdecimal_char c then S (digit_count r) else digit_count r
  end.

(** [int(s)]: surrounding whitespace is ignored, then an optional sign and
    the digits, of which there may be no more than
    [int_max_str_digits].  [None] stands for [ValueError]. *)
Definition int_negative (t : string) : bool :=
  match t with
  | String "-"%char _ => true
  | _ => false
  end.

Definition int_unsigned (t : string) : string :=
  match t with
  | String "-"%char r | String "+"%char r => r
  | r => r
  end.

Definition py_int (s : string) : option Z :=
  let t := rstrip_by isspace_int (lstrip_by isspace_int s) in
  let digits := int_unsigned t in
  if (int_max_str_digits <? digit_count digits)%nat then None
  else if int_negative t then Z.opp <$> int_digits digits 0 false
  else int_digits digits 0 false.

(** ** Telegram objects *)

(** The media descriptor of a message; the relay only passes it on. *)
Inductive Media : Type := MediaRef (ref : Z).

Record Photo : Type := mkPhoto { photo_id : Z }.

Record Document : Type := mkDocument { mime_type : option string }.

Module Message.
Record t : Type := mk {
  id : Z;
  chat_id : Z;
  grouped_id : option Z;
  message : option string;
  media : option Media;
  photo : option Photo;
  document : option Document
}.
End Message.

Module NewMessage.
Record Event : Type := mk { chat_id : Z; message : Message.t }.
End NewMessage.

Module Album.
Record Event : Type := mk {
  chat_id : Z;
  messages : list Message.t;
  grouped_id : option Z
}.
End Album.

(** The [file] argument of [send_file]: a list of media (an album) or
    whatever [getattr(m, "media", None)] gave. *)
Inductive FileArg : Type :=
| Files (part : list Media)
| OneFile (file : option Media).

(** Calls on the client, with the arguments the source passes. *)
Inductive Op : Type :=
| GetEntity (identifier : string)
| SendMessage (dest : Z) (message : string) (file : option Media)
              (link_preview : bool)
| ForwardMessages (dest : Z) (msg_id : Z) (from_chat : Z)
| SendFile (dest : Z) (file : FileArg) (caption : option string)
           (supports_streaming : bool)
| ForwardTo (dest : Z) (album : list Z).

(** ** Client calls as a computation over the trace of calls *)

Definition M (A : Type) : Type := list Op → list Op * (PyExn + A).

#[global] Instance M_ret : MRet M := λ A x h, (h, inr x).
#[global] Instance M_bind : MBind M :=
  λ A B f m h,
    match m h with
    | (h', inl e) => (h', inl e)
    | (h', inr x) => f x h'
    end.

Definition raise {A} (e : PyExn) : M A := λ h, (h, inl e).

(** [try: body except Exception: handler] *)
Definition try_except {A} (body : M A) (handler : PyExn → M A) : M A :=
  λ h,
    match body h with
    | (h', inl e) => handler e h'
    | r => r
    end.

(** [for x in xs: body(x)] *)
Fixpoint for_each {A} (xs : list A) (body : A → M unit) : M unit :=
  match xs with
  | [] => mret ()
  | x :: xs' => body x ≫= λ _, for_each xs' body
  end.

(** Truth value of [getattr(x, attr, None)] for an integer attribute. *)
Definition truthy_id (g : option Z) : bool :=
  match g with
  | Some z => negb (z =? 0)
  | None => false
  end.

(** Truth value of an optional [str]. *)
Definition truthy_str (s : option string) : bool :=
  match s with
  | Some EmptyString | None => false
  | Some _ => true
  end.

(** ** Utilidades de envío (the part that makes no client call) *)

Definition _bucket_kind (m : Message.t) : string :=
  match Message.photo m with
  | Some _ => "photo"
  | None =>
      let mt := match Message.document m with
                | Some d => default "" (mime_type d)
                | None => ""
                end in
      if startswith mt "video/" then "video" else "doc"
  end.

(** [[m.media for m in bucket if getattr(m, "media", None)]] *)
Definition media_files (bucket : list Message.t) : list Media :=
  omap Message.media bucket.

(** [buckets.setdefault(kind, []).append(m)] on an insertion-ordered dict. *)
Fixpoint setdefault_append (buckets : list (string * list Message.t))
    (kind : string) (m : Message.t) : list (string * list Message.t) :=
  match buckets with
  | [] => [(kind, [m])]
  | (k, bucket) :: rest =>
      if decide (k = kind) then (k, bucket ++ [m]) :: rest
      else (k, bucket) :: setdefault_append rest kind m
  end.

(** The first loop of [_send_album_copy]. *)
Definition album_buckets (items : list Message.t)
  : list (string * list Message.t) :=
  fold_left
    (λ buckets m,
       match Message.media m with
       | Some _ => setdefault_append buckets (_bucket_kind m) m
       | None => buckets
       end)
    items [].

(** [next((m.message for m in items if m.message), None)] *)
Fixpoint album_caption (items : list Message.t) : option string :=
  match items with
  | [] => None
  | m :: rest =>
      if truthy_str (Message.message m) then Message.message m
      else album_caption rest
  end.

(** [enumerate(items)] *)
Definition enumerate {A} (items : list A) : list (nat * A) :=
  zip (seq 0 (length items)) items.

Section Client.

(** Whether a call raises, given the calls made before it. *)
Variable raises : list Op → Op → bool.
(** The [id] of the entity that [get_entity] returns when it does not
    raise. *)
Variable entity_id : list Op → string → Z.

Definition call (op : Op) : M unit :=
  λ h, (h ++ [op], if raises h op then inl ClientError else inr ()).

Definition get_entity (identifier : string) : M Z :=
  λ h, (h ++ [GetEntity identifier],
        if raises h (GetEntity identifier) then inl ClientError
        else inr (entity_id h identifier)).

(** *** Resolución de chats *)

Definition _resolve_chat_id (identifier : string) : M Z :=
  let identifier := strip identifier in
  if startswith identifier "t.me/" || startswith identifier "https://t.me/"
  then get_entity identifier
  else if startswith identifier "-100" || isdigit (lstrip "-" identifier)
  then match py_int identifier with
       | Some z => mret z
       | None => raise ValueError
       end
  else if startswith identifier "@" then get_entity identifier
  else get_entity identifier.

(** *** Utilidades de envío *)

Definition _send_single (dest : Z) (msg : Message.t) (copy : bool) : M unit :=
  if copy then
    call (SendMessage dest (default "" (Message.message msg))
            (Message.media msg)
            (match Message.media msg with None => true | Some _ => false end))
  else call (ForwardMessages dest (Message.id msg) (Message.chat_id msg)).

(** The [while i < len(files)] loop, entered with the current [cap] and
    [i]. *)
Equations? send_parts (dest : Z) (files : list Media) (cap : option string)
    (i : nat) : M unit by wf (length files - i)%nat lt :=
  send_parts dest files cap i with decide (i < length files)%nat => {
    | left _ =>
        call (SendFile dest (Files (take 10 (drop i files))) cap true)
        ≫= λ _, send_parts dest files None (i + 10)%nat;
    | right _ => mret () }.
Proof. lia. Qed.

(** The body of [for kind, bucket in buckets.items()]. *)
Definition send_bucket (dest : Z) (caption : option string)
    (kb : string * list Message.t) : M unit :=
  let files := media_files kb.2 in
  match files with
  | [] => mret ()
  | _ => send_parts dest files caption 0
  end.

Definition _send_album_copy (dest : Z) (items : list Message.t)
    (caption : option string) : M unit :=
  for_each (album_buckets items) (send_bucket dest caption).

(** *** Handlers

    [attach_handlers] closes the two handlers over [from_to_ids],
    [copy_mode] and [forward_mode]; here they are arguments. *)

Definition on_new_message (from_to_ids : gmap Z (list Z))
    (copy_mode forward_mode : bool) (event : NewMessage.Event) : M unit :=
  let chat := NewMessage.chat_id event in
  let msg := NewMessage.message event in
  if truthy_id (Message.grouped_id msg) then mret ()
  else
    let dests := default [] (from_to_ids !! chat) in
    match dests with
    | [] => mret ()
    | _ =>
        for_each dests (λ d,
          try_except
            (_send_single d msg (copy_mode && negb forward_mode))
            (λ _, mret ()))
    end.

(** The fallback loop over [enumerate(items)], entered with the current
    [cap]. *)
Fixpoint album_fallback (d : Z) (items : list (nat * Message.t))
    (cap : option string) : M unit :=
  match items with
  | [] => mret ()
  | (idx, m) :: rest =>
      try_except
        (call (SendFile d (OneFile (Message.media m))
                 (if (idx =? 0)%nat then cap else None) true))
        (λ _, mret ())
      ≫= λ _, album_fallback d rest None
  end.

(** The [try] block of [on_album]. *)
Definition album_attempt (copy_mode forward_mode : bool)
    (items : list Message.t) (caption : option string) (d : Z) : M unit :=
  if forward_mode && negb copy_mode
  then call (ForwardTo d (Message.id <$> items))
  else _send_album_copy d items caption.

(** The body of [for d in dests] in [on_album]. *)
Definition on_album_dest (copy_mode forward_mode : bool)
    (items : list Message.t) (caption : option string) (d : Z) : M unit :=
  try_except
    (album_attempt copy_mode forward_mode items caption d)
    (λ _, album_fallback d (enumerate items) caption).

Definition on_album (from_to_ids : gmap Z (list Z))
    (copy_mode forward_mode : bool) (event : Album.Event) : M unit :=
  let src := Album.chat_id event in
  let items := Album.messages event in
  let caption := album_caption items in
  let dests := default [] (from_to_ids !! src) in
  match dests with
  | [] => mret ()
  | _ => for_each dests (on_album_dest copy_mode forward_mode items caption)
  end.

End Client.

(** ** Session / Client *)

(** The process environment; [os.getenv(k)] is [env !! k]. *)
Definition API_ID (env : gmap string string) : option Z :=
  let v := default "0" (env !! "API_ID") in
  py_int (if String.eqb v "" then "0" else v).

Definition API_HASH (env : gmap string string) : option string :=
  env !! "API_HASH".

Definition SESSION_STR (env : gmap string string) : option string :=
  env !! "TGCF_SESSION".

Definition SESSION_FILE (env : gmap string string) : string :=
  default "tgcf.session" (env !! "TGCF_SESSION_FILE").

Inductive Session : Type :=
| StringSession (s : string)
| SessionFile (path : string).

(** The arguments [TelegramClient] is built with. *)
Record TelegramClient : Type := mkTelegramClient {
  session : Session;
  api_id : Z;
  api_hash : string
}.

(** [_make_client] leaves through [sys.exit], or a constructor it calls
    raises, or it returns a client. *)
Inductive ClientResult : Type :=
| SysExit (code : Z)
| Raised (e : PyExn)
| Made (c : TelegramClient).

(** Telethon's part.  [session_error] tells what building the session
    object raises, if anything: [StringSession(s)] on a string it cannot
    decode, the session file on a path it cannot open.
    [TelegramClient(session, api_id, api_hash)] raises [ValueError] when
    the id is 0 or the hash is empty; a [StringSession] is built by the
    caller before the call, a session file by the constructor after that
    check. *)
Definition new_client (session_error : Session → option PyExn)
    (session : Session) (api_id : Z) (api_hash : string) : ClientResult :=
  let made :=
    if (api_id =? 0) || String.eqb api_hash "" then Raised ValueError
    else Made (mkTelegramClient session api_id api_hash) in
  match session with
  | StringSession _ =>
      match session_error session with
      | Some e => Raised e
      | None => made
      end
  | SessionFile _ =>
      match made with
      | Made c =>
          match session_error session with
          | Some e => Raised e
          | None => Made c
          end
      | r => r
      end
  end.

(** [_make_client], as a function of the module globals it reads. *)
Definition _make_client (session_error : Session → option PyExn)
    (api_id : Z) (api_hash session_str : option string)
    (session_file : string) : ClientResult :=
  if truthy_str session_str then
    if (api_id =? 0) || negb (truthy_str api_hash) then SysExit 1
    else new_client session_error (StringSession (default "" session_str))
           api_id (default "" api_hash)
  else if negb (api_id =? 0) && truthy_str api_hash then
    new_client session_error (SessionFile session_file) api_id
      (default "" api_hash)
  else
    new_client session_error (SessionFile session_file)
      (if api_id =? 0 then 0 else api_id)
      (if truthy_str api_hash then default "" api_hash else "").

(** The module-level [client = _make_client()]; [None] when computing
    [API_ID] raises [ValueError]. *)
Definition client (session_error : Session → option PyExn)
    (env : gmap string string) : option ClientResult :=
  i ← API_ID env;
  Some (_make_client session_error i (API_HASH env) (SESSION_STR env)
          (SESSION_FILE env)).

Section Startup.

Variable raises : list Op → Op → bool.
Variable entity_id : list Op → string → Z.

(** The inner loop of [_resolve_from_to]:
    [for d in dests: out[src_id].append(await _resolve_chat_id(d))]. *)
Fixpoint resolve_dests (src_id : Z) (dests : list string)
    (out : gmap Z (list Z)) : M (gmap Z (list Z)) :=
  match dests with
  | [] => mret out
  | d :: rest =>
      _resolve_chat_id raises entity_id d ≫= λ r,
      resolve_dests src_id rest (alter (λ l, l ++ [r]) src_id out)
  end.

(** The outer loop, over [from_to_conf.items()] in iteration order. *)
Fixpoint resolve_items (items : list (string * list string))
    (out : gmap Z (list Z)) : M (gmap Z (list Z)) :=
  match items with
  | [] => mret out
  | (src, dests) :: rest =>
      _resolve_chat_id raises entity_id src ≫= λ src_id,
      resolve_dests src_id dests (<[src_id := []]> out) ≫= λ out',
      resolve_items rest out'
  end.

(** [_resolve_from_to]; the dict it is given is presented by its items. *)
Definition _resolve_from_to (from_to_conf : list (string * list string))
  : M (gmap Z (list Z)) :=
  resolve_items from_to_conf ∅.

End Startup.

(** ** Vocabulary for the statements *)

(** The media list of a batch upload, and the caption of an upload. *)
Definition batch_files (op : Op) : list Media :=
  match op with
  | SendFile _ (Files part) _ _ => part
  | _ => []
  end.

Definition batch_caption (op : Op) : option string :=
  match op with
  | SendFile _ _ caption _ => caption
  | _ => None
  end.

(** The [j]-th upload of the [while] loop entered at index [i] with
    caption [cap]. *)
Definition part_op (dest : Z) (files : list Media) (cap : option string)
    (i j : nat) : Op :=
  SendFile dest (Files (take 10 (drop (i + 10 * j) files)))
    (match j with O => cap | S _ => None end) true.

(** The first [n] uploads made for a bucket whose media are [files]. *)
Definition bucket_uploads (dest : Z) (caption : option string)
    (files : list Media) (n : nat) : list Op :=
  part_op dest files caption 0 <$> seq 0 n.

(** [ops] are uploads made, in order, for a bucket whose media are
    [files]: the first [n] chunks of ten, each starting inside the list. *)
Definition sent_for (dest : Z) (caption : option string)
    (files : list Media) (ops : list Op) : Prop :=
  ∃ n : nat,
    ops = bucket_uploads dest caption files n
    ∧ ∀ j, (j < n)%nat → (10 * j < length files)%nat.

(** The same, and the chunks reach the end of the list. *)
Definition sent_all_for (dest : Z) (caption : option string)
    (files : list Media) (ops : list Op) : Prop :=
  ∃ n : nat,
    ops = bucket_uploads dest caption files n
    ∧ (∀ j, (j < n)%nat → (10 * j < length files)%nat)
    ∧ (length files ≤ 10 * n)%nat.

(** The call the fallback makes for the item at position [idx]. *)
Definition fallback_op (dest : Z) (caption : option string) (idx : nat)
    (m : Message.t) : Op :=
  SendFile dest (OneFile (Message.media m))
    (match idx with O => caption | S _ => None end) true.

(** [op] delivers the single message [msg] to [d], by copy or by
    forward. *)
Definition delivers_single (msg : Message.t) (d : Z) (op : Op) : Prop :=
  op = SendMessage d (default "" (Message.message msg)) (Message.media msg)
         (match Message.media msg with None => true | Some _ => false end)
  ∨ op = ForwardMessages d (Message.id msg) (Message.chat_id msg).


(** The chat a call delivers to; [None] for a lookup. *)
Definition op_dest (op : Op) : option Z :=
  match op with
  | GetEntity _ => None
  | SendMessage d _ _ _ | ForwardMessages d _ _ | SendFile d _ _ _
  | ForwardTo d _ => Some d
  end.

(** [str(z)] for a Python [int]: decimal, no leading zeros, [-] for
    negatives. *)
Definition py_str_int (z : Z) : string :=
  NilZero.string_of_int (Z.to_int z).

(** Resolving a list of identifiers one after the other. *)
Fixpoint resolve_all (raises : list Op → Op → bool)
    (entity_id : list Op → string → Z) (ids : list string) : M (list Z) :=
  match ids with
  | [] => mret []
  | i :: rest =>
      _resolve_chat_id raises entity_id i ≫= λ r,
      resolve_all raises entity_id rest ≫= λ rs, mret (r :: rs)
  end.

(** Whether every character of [s] satisfies [p]. *)
Definition all_chars (p : ascii → bool) (s : string) : bool :=
  forallb p (String.list_ascii_of_string s).

Definition first_char (s : string) : option ascii :=
  match s with
  | EmptyString => None
  | String c _ => Some c
  end.

Fixpoint last_char (s : string) : option ascii :=
  match s with
  | EmptyString => None
  | String c EmptyString => Some c
  | String _ r => last_char r
  end.

(** Whether [_resolve_chat_id] asks the client about [identifier]. *)
Definition needs_lookup (identifier : string) : bool :=
  let i := strip identifier in
  startswith i "t.me/" || startswith i "https://t.me/"
  || negb (startswith i "-100" || isdigit (lstrip "-" i)).

(** The lookups a run over [ids] makes when none of them raises. *)
Definition lookups_of (ids : list string) : list Op :=
  (λ i, GetEntity (strip i)) <$> filter (λ i, Is_true (needs_lookup i)) ids.

(** The identifiers of a configuration, in the order they are resolved. *)
Definition identifiers (conf : list (string * list string)) : list string :=
  concat ((λ sd : string * list string, sd.1 :: sd.2) <$> conf).

(** A configuration written with decimal numerals. *)
Definition numeral_conf (routes : list (Z * list Z))
  : list (string * list string) :=
  (λ sd : Z * list Z, (py_str_int sd.1, py_str_int <$> sd.2)) <$> routes.

(** [z] has no more decimal digits than [int] accepts. *)
Definition within_int_limit (z : Z) : Prop :=
  (digit_count (py_str_int z) ≤ int_max_str_digits)%nat.

(** Every chat id of [routes] is within that limit. *)
Definition routes_within_int_limit (routes : list (Z * list Z)) : Prop :=
  Forall (λ sd : Z * list Z,
            within_int_limit sd.1 ∧ Forall within_int_limit sd.2) routes.

(** [identifier] is settled without the client, and stands for [z]. *)
Definition resolves_offline (identifier : string) (z : Z) : Prop :=
  needs_lookup identifier = false ∧ py_int (strip identifier) = Some z.

(** The table that a list of (source, destinations) pairs leaves when each
    pair is stored in turn. *)
Definition table_of (routes : list (Z * list Z)) : gmap Z (list Z) :=
  foldl (λ out sd, <[sd.1 := sd.2]> out) ∅ routes.

(** The distinct elements of a list, in order of first occurrence. *)
Fixpoint first_seen (l : list string) : list string :=
  match l with
  | [] => []
  | x :: r => x :: filter (λ y, y ≠ x) (first_seen r)
  end.

Definition has_media (m : Message.t) : bool :=
  match Message.media m with Some _ => true | None => false end.

(** The items of a group that have media and are of class [kind], in
    their original order. *)
Definition bucket_of (items : list Message.t) (kind : string)
  : list Message.t :=
  filter (λ m, has_media m ∧ _bucket_kind m = kind) items.

(** The classes seen among the items that have media, first seen first. *)
Definition kinds_seen (items : list Message.t) : list string :=
  first_seen (_bucket_kind <$> filter (λ m, Is_true (has_media m)) items).

(** All the uploads of a copy that goes through: for each class seen, the
    media of its bucket in batches of ten. *)
Definition album_uploads (dest : Z) (items : list Message.t)
    (caption : option string) : list Op :=
  concat ((λ k, bucket_uploads dest caption
                  (media_files (bucket_of items k))
                  ((length (bucket_of items k) + 9) / 10)%nat)
          <$> kinds_seen items).

(** ** Sample transports and messages *)

Definition never_raises : list Op → Op → bool := λ _ _, false.

(** Raises on the first call only. *)
Definition first_call_raises : list Op → Op → bool :=
  λ h _, match h with [] => true | _ => false end.

Definition always_raises : list Op → Op → bool := λ _ _, true.

Definition no_entities : list Op → string → Z := λ _ _, 0.

Definition photo_msg (i : Z) (text : option string) : Message.t :=
  Message.mk i 1 (Some 5) text (Some (MediaRef i)) (Some (mkPhoto i)) None.

Definition pdf_msg (i : Z) (text : option string) : Message.t :=
  Message.mk i 1 (Some 5) text (Some (MediaRef i)) None
    (Some (mkDocument (Some "application/pdf"))).

Definition text_msg (i : Z) (gid : option Z) (text : string) : Message.t :=
  Message.mk i 1 gid (Some text) None None None.

(** The configuration of the file header, without its mapping. *)
Definition config_without_mapping : gmap string json :=
  {[ "mode" := JStr "live"; "copy" := JBool true; "forward" := JBool false ]}.

(** The configuration of the file header. *)
Definition header_config : gmap string json :=
  {[ "mode" := JStr "live"; "copy" := JBool true; "forward" := JBool false;
     "from_to" := JDict {[ "@origen" := JList [JStr "@staging"] ]} ]}.

Definition routes_1_to_7 : gmap Z (list Z) := {[ 1 := [7] ]}.

Definition routes_1_to_7_8 : gmap Z (list Z) := {[ 1 := [7; 8] ]}.

(** Two spellings of one source, and a third source. *)
Definition padded_conf : list (string * list string) :=
  [("-1001", ["7"; "8"]); (" -1001 ", ["9"]); ("12", [])].

(** A photo captioned "hi" followed by a PDF, in source chat 1. *)
Definition photo_and_pdf : Album.Event :=
  Album.mk 1 [photo_msg 1 (Some "hi"); pdf_msg 2 None] (Some 5).

(** A photo captioned "hi" followed by an item that has text and no
    media, in source chat 1. *)
Definition photo_and_note : Album.Event :=
  Album.mk 1 [photo_msg 1 (Some "hi"); text_msg 2 (Some 5) "nota"] (Some 5).

(** An environment that sets a string session and nothing else. *)
Definition session_only_env : gmap string string :=
  {[ "TGCF_SESSION" := "1BVtsOK4Bu" ]}.

(** A space and a line feed. *)
Definition blank : string := String " " (String (ascii_of_nat 10) "").

(** Twelve photos, the first captioned "hi", in source chat 1. *)
Definition twelve_photos : list Message.t :=
  photo_msg 1 (Some "hi") :: ((λ i, photo_msg i None) <$> seqZ 2 11).

(** A group of two items with text and no media. *)
Definition two_notes : Album.Event :=
  Album.mk 1 [text_msg 1 (Some 5) "uno"; text_msg 2 (Some 5) "dos"] (Some 5).

(** A message outside any group, in source chat 1. *)
Definition lone_text : NewMessage.Event :=
  NewMessage.mk 1 (text_msg 3 None "hola").

(** * Properties *)

(** ** Strings *)

Lemma lstrip_by_head p s :
  match lstrip_by p s with
  | EmptyString => True
  | String c _ => p c = false
  end.
Proof.
  induction s as [|c r IH]; simpl; [done|].
  destruct (p c) eqn:E; [exact IH | exact E].
Qed.

Lemma rstrip_by_cons p c r :
  rstrip_by p (String c r) =
  match rstrip_by p r with
  | EmptyString => if p c then EmptyString else String c EmptyString
  | r' => String c r'
  end.
Proof. reflexivity. Qed.

Lemma rstrip_by_idemp p s : rstrip_by p (rstrip_by p s) = rstrip_by p s.
Proof.
  induction s as [|c r IH]; [done|].
  rewrite rstrip_by_cons.
  destruct (rstrip_by p r) as [|c' r'] eqn:E.
  - destruct (p c) eqn:Ec; [done|]. by rewrite rstrip_by_cons, Ec.
  - by rewrite rstrip_by_cons, IH.
Qed.

Lemma lstrip_by_rstrip_by p c r :
  p c = false →
  lstrip_by p (rstrip_by p (String c r)) = rstrip_by p (String c r).
Proof.
  intros Hc. rewrite rstrip_by_cons.
  destruct (rstrip_by p r); rewrite ?Hc; simpl; by rewrite Hc.
Qed.

Lemma strip_idemp s : strip (strip s) = strip s.
Proof.
  unfold strip. pose proof (lstrip_by_head isspace s) as Hhd.
  destruct (lstrip_by isspace s) as [|c r]; [done|].
  rewrite lstrip_by_rstrip_by by done. apply rstrip_by_idemp.
Qed.

(** ** Chat resolution *)

(** C10: [_resolve_chat_id] strips the identifier before looking at it, so
    an identifier and its stripped form resolve alike; [" -100123 "] is
    turned into the integer -100123 with no call on the client, whatever
    the transport does. *)
Theorem resolve_chat_id_strips_first :
  (∀ raises entity_id s,
     _resolve_chat_id raises entity_id s
     = _resolve_chat_id raises entity_id (strip s))
  ∧ (∀ raises entity_id h,
       _resolve_chat_id raises entity_id " -100123 " h = (h, inr (-100123))).
Proof.
  split.
  - intros raises entity_id s. unfold _resolve_chat_id.
    by rewrite strip_idemp.
  - intros raises entity_id h. reflexivity.
Qed.

(** Identifiers that take the numeric branch never reach the client. *)
Lemma resolve_numeric_no_lookup raises entity_id s h :
  startswith (strip s) "t.me/" || startswith (strip s) "https://t.me/" = false →
  startswith (strip s) "-100" || isdigit (lstrip "-" (strip s)) = true →
  (_resolve_chat_id raises entity_id s h).1 = h.
Proof.
  intros H1 H2. unfold _resolve_chat_id. rewrite H1, H2.
  by destruct (py_int (strip s)).
Qed.

(** ** Configuration *)

(** C8, as the code has it: when the parsed configuration is a dict with
    no ["from_to"] key, [_load_config] raises nothing and returns a
    configuration whose mapping is the empty dict; [copy] and [forward]
    come from the input or their defaults. *)
Theorem load_config_missing_mapping fs path (d : gmap string json) :
  fs path = Json (JDict d) →
  d !! "from_to" = None →
  _load_config fs path
  = inr {| copy := py_bool (default (JBool true) (d !! "copy"));
           forward := py_bool (default (JBool false) (d !! "forward"));
           from_to := JDict ∅ |}.
Proof.
  intros Hfs Hmiss. unfold _load_config. rewrite Hfs. simpl.
  rewrite Hmiss. reflexivity.
Qed.

Lemma load_config_missing_mapping_witness :
  _load_config (λ _, Json (JDict config_without_mapping)) "tgcf.config.json"
  = inr {| copy := true; forward := false; from_to := JDict ∅ |}.
Proof.
  apply (load_config_missing_mapping
           (λ _, Json (JDict config_without_mapping)) "tgcf.config.json"
           config_without_mapping); reflexivity.
Defined.

(** C8 as stated fails: a configuration without the mapping loads without
    any error. *)
Lemma load_config_missing_mapping_no_error :
  ¬ ∃ e : PyExn,
      _load_config (λ _, Json (JDict config_without_mapping)) "tgcf.config.json"
      = inl e.
Proof. intros [e He]. vm_compute in He. discriminate He. Qed.

(** ** The trace monad *)

Section Runs.

Variable raises : list Op → Op → bool.
Variable entity_id : list Op → string → Z.

Lemma bind_run {A B} (m : M A) (f : A → M B) h :
  (m ≫= f) h =
  match m h with
  | (h', inl e) => (h', inl e)
  | (h', inr x) => f x h'
  end.
Proof. reflexivity. Qed.

(** A guarded call is made and never raises. *)
Lemma guarded_call_run op h :
  try_except (call raises op) (λ _, mret ()) h = (h ++ [op], inr ()).
Proof.
  unfold try_except, call. by destruct (raises h op).
Qed.

Lemma for_each_guarded_calls {A} (op : A → Op) xs h :
  for_each xs (λ x, try_except (call raises (op x)) (λ _, mret ())) h
  = (h ++ (op <$> xs), inr ()).
Proof.
  revert h. induction xs as [|x xs IH]; intros h; simpl.
  - by rewrite app_nil_r.
  - rewrite bind_run, guarded_call_run, IH.
    by rewrite <- app_assoc.
Qed.

(** ** Single messages *)

(** What [on_new_message] does for a message outside any group. *)
Lemma on_new_message_ungrouped from_to_ids copy_mode forward_mode event h :
  truthy_id (Message.grouped_id (NewMessage.message event)) = false →
  on_new_message raises from_to_ids copy_mode forward_mode event h
  = (h ++ ((λ d,
             let msg := NewMessage.message event in
             if copy_mode && negb forward_mode
             then SendMessage d (default "" (Message.message msg))
                    (Message.media msg)
                    (match Message.media msg with
                     | None => true | Some _ => false end)
             else ForwardMessages d (Message.id msg) (Message.chat_id msg))
           <$> default [] (from_to_ids !! NewMessage.chat_id event)),
     inr ()).
Proof.
  intros Hg. unfold on_new_message. rewrite Hg.
  set (dests := default [] _).
  assert (for_each dests (λ d, try_except
            (_send_single raises d (NewMessage.message event)
               (copy_mode && negb forward_mode)) (λ _, mret ())) h
          = (h ++ ((λ d,
             let msg := NewMessage.message event in
             if copy_mode && negb forward_mode
             then SendMessage d (default "" (Message.message msg))
                    (Message.media msg)
                    (match Message.media msg with
                     | None => true | Some _ => false end)
             else ForwardMessages d (Message.id msg) (Message.chat_id msg))
           <$> dests), inr ())) as Hrun.
  { unfold _send_single.
    destruct (copy_mode && negb forward_mode); apply for_each_guarded_calls. }
  destruct dests; [|exact Hrun]. simpl. by rewrite app_nil_r.
Qed.

End Runs.

(** C6: a single-message event whose message has a group identifier
    (present and non-zero, which is what the handler tests) makes
    [on_new_message] return at once: no call on the client is made, for
    any routing table, any mode flags and any transport. *)
Theorem on_new_message_skips_grouped raises from_to_ids copy_mode forward_mode
    event (gid : Z) h :
  Message.grouped_id (NewMessage.message event) = Some gid →
  gid ≠ 0 →
  on_new_message raises from_to_ids copy_mode forward_mode event h
  = (h, inr ()).
Proof.
  intros Hg Hnz. unfold on_new_message, truthy_id. rewrite Hg.
  destruct (Z.eqb_spec gid 0) as [->|_]; [done|reflexivity].
Qed.

Lemma on_new_message_skips_grouped_witness :
  on_new_message never_raises routes_1_to_7 true false
    (NewMessage.mk 1 (text_msg 3 (Some 5) "hola")) [] = ([], inr ()).
Proof.
  apply (on_new_message_skips_grouped never_raises routes_1_to_7 true false
           (NewMessage.mk 1 (text_msg 3 (Some 5) "hola")) 5 []);
    [reflexivity | lia].
Defined.

(** ** The upload loop of [_send_album_copy] *)

Section AlbumCopy.

Variable raises : list Op → Op → bool.

Lemma send_parts_lt d files cap i :
  (i < length files)%nat →
  send_parts raises d files cap i
  = call raises (SendFile d (Files (take 10 (drop i files))) cap true)
    ≫= λ _, send_parts raises d files None (i + 10)%nat.
Proof.
  intros Hi. rewrite send_parts_equation_1.
  destruct (decide (i < length files)%nat); [reflexivity | lia].
Qed.

Lemma send_parts_ge d files cap i :
  (length files ≤ i)%nat → send_parts raises d files cap i = mret ().
Proof.
  intros Hi. rewrite send_parts_equation_1.
  destruct (decide (i < length files)%nat); [lia | reflexivity].
Qed.

(** The loop makes the uploads [part_op .. 0], [part_op .. 1], ... in
    turn, stops at the first one that raises, and otherwise runs until
    the list is used up. *)
Lemma send_parts_run d files cap i h :
  ∃ (n : nat) (r : PyExn + ()),
    send_parts raises d files cap i h
    = (h ++ (part_op d files cap i <$> seq 0 n), r)
    ∧ (∀ j, (j < n)%nat → (i + 10 * j < length files)%nat)
    ∧ (r = inr () → (length files ≤ i + 10 * n)%nat).
Proof.
  remember (length files - i)%nat as k eqn:Hk.
  revert i cap h Hk.
  induction k as [k IH] using lt_wf_ind; intros i cap h Hk.
  destruct (decide (i < length files)%nat) as [Hlt|Hge].
  - rewrite send_parts_lt by done. rewrite bind_run. unfold call at 1.
    destruct (raises h _) eqn:Hr.
    + exists 1%nat, (inl ClientError). simpl. unfold part_op at 1.
      rewrite Nat.add_0_r. split; [done|]. split; [|done].
      intros j Hj. assert (j = 0%nat) as -> by lia. lia.
    + destruct (IH (length files - (i + 10))%nat ltac:(lia)
                  (i + 10)%nat None
                  (h ++ [SendFile d (Files (take 10 (drop i files))) cap true])
                  eq_refl) as (n & r & Hrun & Hidx & Hdone).
      exists (S n), r. rewrite Hrun. split; [|split].
      * f_equal. rewrite <- app_assoc. f_equal. simpl.
        assert (part_op d files cap i 0
                = SendFile d (Files (take 10 (drop i files))) cap true) as ->.
        { unfold part_op. by rewrite Nat.add_0_r. }
        f_equal.
        rewrite <- fmap_S_seq, <- list_fmap_compose.
        apply list_fmap_ext. intros _ j _. unfold part_op, compose.
        replace (i + 10 + 10 * j)%nat with (i + 10 * S j)%nat by lia.
        by destruct j.
      * intros [|j] Hj; [lia|]. specialize (Hidx j ltac:(lia)). lia.
      * intros Hok. specialize (Hdone Hok). lia.
  - rewrite send_parts_ge by lia. exists 0%nat, (inr ()). simpl.
    rewrite app_nil_r. split; [done|]. split; [lia|]. intros _. lia.
Qed.

End AlbumCopy.

(** ** Buckets *)

Lemma first_seen_elem x l : x ∈ first_seen l ↔ x ∈ l.
Proof.
  induction l as [|a l IH]; simpl; [done|].
  rewrite !elem_of_cons, list_elem_of_filter, IH.
  destruct (decide (x = a)); naive_solver.
Qed.

Lemma first_seen_NoDup l : NoDup (first_seen l).
Proof.
  induction l as [|a l IH]; simpl; [constructor|].
  constructor; [|by apply NoDup_filter].
  rewrite list_elem_of_filter. naive_solver.
Qed.

Lemma first_seen_snoc l x :
  first_seen (l ++ [x])
  = if decide (x ∈ l) then first_seen l else first_seen l ++ [x].
Proof.
  induction l as [|a l IH]; [done|].
  change ((a :: l) ++ [x]) with (a :: (l ++ [x])). cbn [first_seen].
  rewrite IH. destruct (decide (x ∈ l)) as [Hin|Hnin].
  - rewrite decide_True by (rewrite elem_of_cons; tauto). done.
  - rewrite filter_app, filter_cons, filter_nil.
    destruct (decide (x = a)) as [->|Hne].
    + rewrite (decide_True (P := a ∈ a :: l)) by (rewrite elem_of_cons; tauto).
      rewrite (decide_False (P := a ≠ a)) by naive_solver.
      by rewrite app_nil_r.
    + rewrite (decide_False (P := x ∈ a :: l))
        by (rewrite elem_of_cons; naive_solver).
      by rewrite (decide_True (P := x ≠ a)) by done.
Qed.

Lemma setdefault_append_fmap (f : string → list Message.t) ks kind m :
  NoDup ks →
  setdefault_append ((λ k, (k, f k)) <$> ks) kind m
  = if decide (kind ∈ ks)
    then (λ k, (k, if decide (k = kind) then f k ++ [m] else f k)) <$> ks
    else ((λ k, (k, f k)) <$> ks) ++ [(kind, [m])].
Proof.
  induction 1 as [|k ks Hk Hnd IH]; [done|].
  rewrite !fmap_cons. cbn [setdefault_append].
  destruct (decide (k = kind)) as [->|Hne].
  - rewrite (decide_True (P := kind ∈ kind :: ks))
      by (rewrite elem_of_cons; tauto).
    f_equal. apply list_fmap_ext. intros ? k' Hk'.
    apply list_elem_of_lookup_2 in Hk'.
    rewrite decide_False; [done|]. intros Heq. by subst.
  - rewrite IH. destruct (decide (kind ∈ ks)) as [Hin|Hnin].
    + by rewrite (decide_True (P := kind ∈ k :: ks))
        by (rewrite elem_of_cons; tauto).
    + by rewrite (decide_False (P := kind ∈ k :: ks))
        by (rewrite elem_of_cons; naive_solver).
Qed.

Lemma filter_none {A} (P : A → Prop) `{∀ x, Decision (P x)} (l : list A) :
  (∀ x, x ∈ l → ¬ P x) → filter P l = [].
Proof.
  induction l as [|a l IH]; intros Hl; [done|].
  rewrite filter_cons, decide_False by (apply Hl; rewrite elem_of_cons; tauto).
  apply IH. intros x Hx. apply Hl. rewrite elem_of_cons. tauto.
Qed.

Lemma album_buckets_snoc items m :
  album_buckets (items ++ [m])
  = match Message.media m with
    | Some _ => setdefault_append (album_buckets items) (_bucket_kind m) m
    | None => album_buckets items
    end.
Proof. unfold album_buckets. by rewrite fold_left_app. Qed.

Lemma bucket_of_snoc items m kind :
  bucket_of (items ++ [m]) kind
  = bucket_of items kind
    ++ (if decide (has_media m ∧ _bucket_kind m = kind) then [m] else []).
Proof. unfold bucket_of. by rewrite filter_app, filter_cons, filter_nil. Qed.

(** The dict built by the first loop of [_send_album_copy]: one bucket per
    class seen, first seen first, each holding the items of that class
    that have media, in their original order. *)
Lemma album_buckets_spec items :
  album_buckets items = (λ k, (k, bucket_of items k)) <$> kinds_seen items.
Proof.
  induction items as [|m items IH] using rev_ind; [done|].
  rewrite album_buckets_snoc, IH. unfold kinds_seen.
  rewrite filter_app, filter_cons, filter_nil.
  destruct (Message.media m) as [md|] eqn:Hmd.
  - assert (Is_true (has_media m)) as Hm by (unfold has_media; by rewrite Hmd).
    rewrite decide_True by done.
    rewrite fmap_app.
    change (_bucket_kind <$> [m]) with [_bucket_kind m].
    rewrite first_seen_snoc.
    rewrite setdefault_append_fmap by apply first_seen_NoDup.
    set (kinds := _bucket_kind <$> filter _ items).
    destruct (decide (_bucket_kind m ∈ kinds)) as [Hin|Hnin].
    + rewrite decide_True by (by apply first_seen_elem).
      apply list_fmap_ext. intros _ k _. rewrite bucket_of_snoc.
      destruct (decide (k = _bucket_kind m)) as [->|Hne].
      * by rewrite decide_True by done.
      * rewrite decide_False by naive_solver. by rewrite app_nil_r.
    + rewrite decide_False by (by rewrite first_seen_elem).
      rewrite fmap_app. simpl. f_equal.
      * apply list_fmap_ext. intros ? k Hk.
        apply list_elem_of_lookup_2 in Hk. rewrite first_seen_elem in Hk.
        rewrite bucket_of_snoc.
        rewrite decide_False; [by rewrite app_nil_r|].
        intros [_ Heq]. apply Hnin. by rewrite Heq.
      * repeat f_equal. rewrite bucket_of_snoc.
        rewrite decide_True by done.
        replace (bucket_of items (_bucket_kind m)) with (@nil Message.t); [done|].
        symmetry. unfold bucket_of. apply filter_none.
        intros m' Hin [Hmed Hkind]. apply Hnin.
        rewrite <- Hkind. unfold kinds. apply list_elem_of_fmap_2.
        by apply list_elem_of_filter.
  - assert (¬ Is_true (has_media m)) as Hm
      by (unfold has_media; rewrite Hmd; simpl; tauto).
    rewrite decide_False by done. rewrite app_nil_r.
    apply list_fmap_ext. intros _ k _. rewrite bucket_of_snoc.
    rewrite decide_False by naive_solver. by rewrite app_nil_r.
Qed.

(** ** Uploads of a bucket and of a whole group *)

Lemma bucket_uploads_elem d caption files n op :
  (∀ j, (j < n)%nat → (10 * j < length files)%nat) →
  op ∈ bucket_uploads d caption files n →
  ∃ (j : nat) (c : option string),
    (10 * j < length files)%nat
    ∧ op = SendFile d (Files (take 10 (drop (10 * j) files))) c true.
Proof.
  intros Hn Hop. apply list_elem_of_fmap in Hop as (j & -> & Hj).
  apply elem_of_seq in Hj. exists j. eexists. split; [apply Hn; lia|].
  unfold part_op. reflexivity.
Qed.

Lemma bucket_uploads_concat d caption files n :
  concat (batch_files <$> bucket_uploads d caption files n)
  = take (10 * n) files.
Proof.
  unfold bucket_uploads. induction n as [|n IH]; [done|].
  rewrite seq_S, !fmap_app, concat_app, IH. simpl.
  rewrite app_nil_r, take_take_drop. f_equal. lia.
Qed.

Lemma part_size (files : list Media) j :
  (10 * j < length files)%nat →
  (1 ≤ length (take 10 (drop (10 * j) files)) ≤ 10)%nat.
Proof. intros Hj. rewrite length_take, length_drop. lia. Qed.

Section AlbumRuns.

Variable raises : list Op → Op → bool.

Lemma send_bucket_run d caption kb h :
  ∃ (n : nat) (r : PyExn + ()),
    send_bucket raises d caption kb h
    = (h ++ bucket_uploads d caption (media_files kb.2) n, r)
    ∧ (∀ j, (j < n)%nat → (10 * j < length (media_files kb.2))%nat)
    ∧ (r = inr () → (length (media_files kb.2) ≤ 10 * n)%nat).
Proof.
  destruct (send_parts_run raises d (media_files kb.2) caption 0 h)
    as (n & r & Hrun & Hidx & Hdone).
  exists n, r. split; [|split; [exact Hidx | exact Hdone]].
  unfold send_bucket, bucket_uploads. cbv zeta.
  destruct (media_files kb.2) eqn:Hf; [|exact Hrun].
  rewrite <- Hrun. by rewrite send_parts_ge.
Qed.

(** The second loop of [_send_album_copy]: buckets are served in order;
    the loop ends with the first upload that raises. *)
Lemma send_buckets_run d caption bs h :
  ∃ (opss : list (list Op)) (r : PyExn + ()),
    for_each bs (send_bucket raises d caption) h = (h ++ concat opss, r)
    ∧ Forall2 (λ kb ops, sent_for d caption (media_files kb.2) ops)
        (take (length opss) bs) opss
    ∧ (r = inr () →
       Forall2 (λ kb ops, sent_all_for d caption (media_files kb.2) ops)
         bs opss).
Proof.
  revert h. induction bs as [|kb bs IH]; intros h.
  - exists [], (inr ()). cbn [for_each concat length take].
    split; [unfold mret, M_ret; by rewrite app_nil_r|].
    split; [constructor | intros _; constructor].
  - cbn [for_each]. rewrite bind_run.
    destruct (send_bucket_run d caption kb h) as (n & r0 & Hrun & Hidx & Hdone).
    rewrite Hrun. destruct r0 as [e|[]].
    + exists [bucket_uploads d caption (media_files kb.2) n], (inl e).
      cbn [concat length take]. rewrite app_nil_r. split; [done|].
      split; [|done]. rewrite take_0. repeat constructor.
      by exists n.
    + destruct (IH (h ++ bucket_uploads d caption (media_files kb.2) n))
        as (opss & r & Hrun' & Hpre & Hall).
      exists (bucket_uploads d caption (media_files kb.2) n :: opss), r.
      rewrite Hrun'. cbn [concat length take].
      rewrite <- app_assoc. split; [done|]. split.
      * constructor; [by exists n | done].
      * intros Hr. constructor; [|by apply Hall].
        exists n. split; [done|]. split; [done|]. by apply Hdone.
Qed.

(** [_send_album_copy] in terms of the classes seen in the group. *)
Lemma send_album_copy_run d items caption h :
  ∃ (opss : list (list Op)) (r : PyExn + ()),
    _send_album_copy raises d items caption h = (h ++ concat opss, r)
    ∧ Forall2 (λ k ops, sent_for d caption
                          (media_files (bucket_of items k)) ops)
        (take (length opss) (kinds_seen items)) opss
    ∧ (r = inr () →
       Forall2 (λ k ops, sent_all_for d caption
                           (media_files (bucket_of items k)) ops)
         (kinds_seen items) opss).
Proof.
  unfold _send_album_copy.
  destruct (send_buckets_run d caption (album_buckets items) h)
    as (opss & r & Hrun & Hpre & Hall).
  exists opss, r. split; [done|].
  rewrite album_buckets_spec in Hpre, Hall.
  rewrite <- fmap_take in Hpre. rewrite Forall2_fmap_l in Hpre.
  split; [exact Hpre|]. intros Hr. specialize (Hall Hr).
  by rewrite Forall2_fmap_l in Hall.
Qed.

End AlbumRuns.

(** ** Batches of a group delivered in copy mode *)

Lemma Forall2_right {A B} (P : A → B → Prop) (Q : B → Prop) l k :
  Forall2 P l k → (∀ x y, P x y → Q y) → Forall Q k.
Proof. induction 1; intros HPQ; constructor; eauto. Qed.

Lemma bucket_of_Forall items k :
  Forall (λ m, has_media m ∧ _bucket_kind m = k) (bucket_of items k).
Proof.
  apply Forall_forall. intros m Hm.
  by apply list_elem_of_filter in Hm as [Hm _].
Qed.

Lemma media_files_Some b :
  Forall (λ m, Is_true (has_media m)) b →
  Some <$> media_files b = Message.media <$> b.
Proof.
  unfold media_files, has_media.
  induction 1 as [|m b Hm _ IH]; [done|].
  cbn [omap list_omap fmap list_fmap].
  destruct (Message.media m); [|done]. cbn. f_equal. exact IH.
Qed.

Lemma bucket_media items k :
  Some <$> media_files (bucket_of items k)
  = Message.media <$> bucket_of items k.
Proof.
  apply media_files_Some. eapply Forall_impl; [apply bucket_of_Forall|].
  by intros m [Hm _].
Qed.

Section NoFailure.

Variable raises : list Op → Op → bool.
Hypothesis quiet : ∀ h op, raises h op = false.

Lemma send_parts_quiet d files cap i h :
  (send_parts raises d files cap i h).2 = inr ().
Proof.
  remember (length files - i)%nat as k eqn:Hk.
  revert i cap h Hk.
  induction k as [k IH] using lt_wf_ind; intros i cap h Hk.
  destruct (decide (i < length files)%nat) as [Hlt|Hge].
  - rewrite send_parts_lt by done. rewrite bind_run. unfold call at 1.
    rewrite quiet. eapply IH; [|reflexivity]. lia.
  - by rewrite send_parts_ge by lia.
Qed.

(** When no call raises, [_send_album_copy] returns normally. *)
Lemma send_album_copy_quiet d items caption h :
  (_send_album_copy raises d items caption h).2 = inr ().
Proof.
  unfold _send_album_copy. generalize (album_buckets items) as bs.
  intros bs. revert h. induction bs as [|kb bs IH]; intros h; [done|].
  cbn [for_each]. rewrite bind_run.
  assert ((send_bucket raises d caption kb h).2 = inr ()) as Hb.
  { unfold send_bucket. cbv zeta.
    destruct (media_files kb.2); [done | apply send_parts_quiet]. }
  destruct (send_bucket raises d caption kb h) as [h' [e|[]]];
    [discriminate Hb | apply IH].
Qed.

End NoFailure.

(** C4: the uploads [_send_album_copy] makes are batch uploads to the
    destination, each of 1 to 10 media; they come bucket by bucket, and
    when the delivery goes through, the batches of a bucket, put end to
    end, are the media of exactly the items of that bucket (the items of
    one class that have media) in their original order.  The delivery
    does go through whenever no call raises. *)
Theorem album_copy_batch_sizes raises d items caption h :
  ∃ opss : list (list Op),
    (_send_album_copy raises d items caption h).1 = h ++ concat opss
    ∧ Forall (Forall (λ op, ∃ part c,
                        op = SendFile d (Files part) c true
                        ∧ (1 ≤ length part ≤ 10)%nat)) opss
    ∧ ((_send_album_copy raises d items caption h).2 = inr () →
       Forall2 (λ kind ops,
                  Some <$> concat (batch_files <$> ops)
                  = Message.media <$> bucket_of items kind)
         (kinds_seen items) opss)
    ∧ ((∀ h' op, raises h' op = false) →
       (_send_album_copy raises d items caption h).2 = inr ()).
Proof.
  destruct (send_album_copy_run raises d items caption h)
    as (opss & r & Hrun & Hpre & Hall).
  exists opss. split; [by rewrite Hrun|]. split; [|split].
  - eapply Forall2_right; [exact Hpre|].
    intros k ops (n & -> & Hn). apply Forall_forall. intros op Hop.
    destruct (bucket_uploads_elem _ _ _ _ _ Hn Hop) as (j & c & Hj & ->).
    eexists _, c. split; [reflexivity|]. by apply part_size.
  - rewrite Hrun. cbn [snd]. intros Hr.
    eapply Forall2_impl; [exact (Hall Hr)|].
    intros k ops (n & -> & _ & Hlen).
    rewrite bucket_uploads_concat, take_ge by done. apply bucket_media.
  - intros Hquiet. by apply send_album_copy_quiet.
Qed.

(** C4 at twelve photos and a transport that never raises: the delivery
    goes through in a batch of ten and a batch of two, which together are
    the twelve photos in order. *)
Lemma album_copy_batch_sizes_witness :
  ∃ opss : list (list Op),
    opss = [[SendFile 7 (Files (MediaRef <$> seqZ 1 10)) (Some "hi") true;
             SendFile 7 (Files [MediaRef 11; MediaRef 12]) None true]]
    ∧ (_send_album_copy never_raises 7 twelve_photos (Some "hi") []).1
      = [] ++ concat opss
    ∧ (_send_album_copy never_raises 7 twelve_photos (Some "hi") []).2
      = inr ()
    ∧ Forall2 (λ kind ops,
                 Some <$> concat (batch_files <$> ops)
                 = Message.media <$> bucket_of twelve_photos kind)
        (kinds_seen twelve_photos) opss.
Proof.
  destruct (album_copy_batch_sizes never_raises 7 twelve_photos (Some "hi") [])
    as (opss & Hrun & _ & Hall & Hok).
  specialize (Hok (λ _ _, eq_refl)). specialize (Hall Hok).
  exists opss. split; [|by repeat split].
  apply Forall2_length in Hall as Hlen.
  destruct opss as [|ops [|ops' opss]]; try discriminate Hlen.
  cbn [concat app] in Hrun. rewrite app_nil_r in Hrun. by rewrite <- Hrun.
Defined.

(** C4 is not vacuous: with a transport that never raises the delivery
    goes through. *)
Lemma album_copy_never_raises d items caption h :
  (_send_album_copy never_raises d items caption h).2 = inr ().
Proof. by apply send_album_copy_quiet. Qed.

(** C5: [_bucket_kind] is "photo" when a photo is present, else "video"
    when the document's mime type starts with "video/", else "doc"; the
    buckets are one per class seen, first seen first, each keeping the
    original order of its items; and every batch upload made by
    [_send_album_copy] carries the media of items of one class only. *)
Theorem album_copy_type_isolation :
  (∀ m,
     _bucket_kind m
     = match Message.photo m, Message.document m with
       | Some _, _ => "photo"
       | None, Some {| mime_type := Some mt |} =>
           if startswith mt "video/" then "video" else "doc"
       | None, _ => "doc"
       end)
  ∧ (∀ items,
       album_buckets items
       = (λ k, (k, bucket_of items k)) <$> kinds_seen items)
  ∧ (∀ raises d items caption h,
       ∃ ops,
         (_send_album_copy raises d items caption h).1 = h ++ ops
         ∧ Forall (λ op, ∃ kind (ms : list Message.t) part c,
                     op = SendFile d (Files part) c true
                     ∧ Some <$> part = Message.media <$> ms
                     ∧ ms `sublist_of` items
                     ∧ Forall (λ m, _bucket_kind m = kind) ms) ops).
Proof.
  split; [|split].
  - intros m. unfold _bucket_kind.
    destruct (Message.photo m); [done|].
    by destruct (Message.document m) as [[[mt|]]|].
  - apply album_buckets_spec.
  - intros raises d items caption h.
    destruct (send_album_copy_run raises d items caption h)
      as (opss & r & Hrun & Hpre & _).
    exists (concat opss). rewrite Hrun. split; [done|].
    apply Forall_concat. eapply Forall2_right; [exact Hpre|].
    intros k ops (n & -> & Hn). apply Forall_forall. intros op Hop.
    destruct (bucket_uploads_elem _ _ _ _ _ Hn Hop) as (j & c & Hj & ->).
    exists k, (take 10 (drop (10 * j) (bucket_of items k))).
    eexists _, c. split; [reflexivity|]. split; [|split].
    + by rewrite !fmap_take, !fmap_drop, bucket_media.
    + etrans; [apply sublist_take|]. etrans; [apply sublist_drop|].
      apply sublist_filter.
    + apply Forall_take, Forall_drop.
      eapply Forall_impl; [apply bucket_of_Forall|]. by intros m [_ Hk].
Qed.

(** ** The group handler *)

Section AlbumHandler.

Variable raises : list Op → Op → bool.

Lemma album_fallback_tail d (l : list Message.t) s h :
  album_fallback raises d (zip (seq (S s) (length l)) l) None h
  = (h ++ ((λ m, SendFile d (OneFile (Message.media m)) None true) <$> l),
     inr ()).
Proof.
  revert s h. induction l as [|m l IH]; intros s h.
  - simpl. by rewrite app_nil_r.
  - cbn [length seq zip zip_with album_fallback].
    rewrite bind_run, guarded_call_run, IH.
    rewrite <- app_assoc. reflexivity.
Qed.

(** The fallback calls [send_file] once for every item, in order, and
    returns normally whatever the transport does. *)
Lemma album_fallback_run d items caption h :
  album_fallback raises d (enumerate items) caption h
  = (h ++ imap (fallback_op d caption) items, inr ()).
Proof.
  unfold enumerate. destruct items as [|m l].
  - simpl. by rewrite app_nil_r.
  - cbn [length seq zip zip_with album_fallback].
    rewrite bind_run, guarded_call_run, album_fallback_tail.
    rewrite <- app_assoc, imap_cons. do 2 f_equal.
    cbn [app]. f_equal.
    rewrite <- (imap_const (λ m, SendFile d (OneFile (Message.media m))
                                   None true)).
    by apply imap_ext.
Qed.

Lemma on_album_dest_returns copy_mode forward_mode items caption d h :
  (on_album_dest raises copy_mode forward_mode items caption d h).2
  = inr ().
Proof.
  unfold on_album_dest, try_except.
  destruct (album_attempt raises copy_mode forward_mode items caption d h)
    as [h' [e|[]]]; [|done].
  by rewrite album_fallback_run.
Qed.

Lemma for_each_returns {A} (body : A → M unit) xs h :
  (∀ x h, (body x h).2 = inr ()) → (for_each xs body h).2 = inr ().
Proof.
  intros Hbody. revert h. induction xs as [|x xs IH]; intros h; [done|].
  cbn [for_each]. rewrite bind_run. specialize (Hbody x h).
  destruct (body x h) as [h' [e|[]]]; [discriminate Hbody | apply IH].
Qed.

(** [on_album] never lets an exception out. *)
Lemma on_album_returns from_to_ids copy_mode forward_mode event h :
  (on_album raises from_to_ids copy_mode forward_mode event h).2 = inr ().
Proof.
  unfold on_album. cbv zeta.
  destruct (default [] _) as [|d dests] eqn:Hd; [done|].
  apply for_each_returns. intros d' h'. apply on_album_dest_returns.
Qed.

Lemma for_each_segments {A} (body : A → M unit) (Q : A → list Op → Prop)
    xs h :
  (∀ x h, ∃ ops, body x h = (h ++ ops, inr ()) ∧ Q x ops) →
  ∃ segs, for_each xs body h = (h ++ concat segs, inr ()) ∧ Forall2 Q xs segs.
Proof.
  intros Hbody. revert h. induction xs as [|x xs IH]; intros h.
  - exists []. cbn. rewrite app_nil_r. by split; [|constructor].
  - cbn [for_each]. rewrite bind_run.
    destruct (Hbody x h) as (ops & -> & HQ).
    destruct (IH (h ++ ops)) as (segs & -> & Hsegs).
    exists (ops :: segs). cbn [concat]. rewrite <- app_assoc.
    split; [done | by constructor].
Qed.

Lemma on_album_for_each from_to_ids copy_mode forward_mode event h :
  on_album raises from_to_ids copy_mode forward_mode event h
  = for_each (default [] (from_to_ids !! Album.chat_id event))
      (on_album_dest raises copy_mode forward_mode (Album.messages event)
         (album_caption (Album.messages event))) h.
Proof. unfold on_album. cbv zeta. by destruct (default [] _). Qed.

(** The same, with what is known of each run depending on the calls made
    before it. *)
Lemma for_each_segments_at {A} (body : A → M unit)
    (Q : list Op → A → list Op → Prop) xs h :
  (∀ x h, ∃ ops, body x h = (h ++ ops, inr ()) ∧ Q h x ops) →
  ∃ segs,
    for_each xs body h = (h ++ concat segs, inr ())
    ∧ length segs = length xs
    ∧ ∀ (k : nat) x seg,
        xs !! k = Some x → segs !! k = Some seg →
        Q (h ++ concat (take k segs)) x seg.
Proof.
  intros Hbody. revert h. induction xs as [|x xs IH]; intros h.
  - exists []. cbn. rewrite app_nil_r. by repeat split.
  - cbn [for_each]. rewrite bind_run.
    destruct (Hbody x h) as (ops & -> & HQ).
    destruct (IH (h ++ ops)) as (segs & -> & Hlen & Hsegs).
    exists (ops :: segs). cbn [concat]. rewrite <- app_assoc.
    split; [done|]. split; [cbn; by rewrite Hlen|].
    intros [|k] y seg Hy Hseg.
    + cbn in Hy, Hseg. injection Hy as <-. injection Hseg as <-.
      cbn [take concat]. by rewrite app_nil_r.
    + cbn in Hy, Hseg. rewrite firstn_cons. cbn [concat].
      rewrite app_assoc. by apply Hsegs.
Qed.

End AlbumHandler.

(** C7: when the attempt made for a destination (the album forward, or
    the batch uploads of the copy) raises, [on_album] goes on to call
    [send_file] once for each item of the group, in group order, at that
    destination, whichever of these calls raise, and the handling of the
    destination returns normally. *)
Theorem album_fallback_attempts_all raises copy_mode forward_mode items
    caption d h h' e :
  album_attempt raises copy_mode forward_mode items caption d h
  = (h', inl e) →
  on_album_dest raises copy_mode forward_mode items caption d h
  = (h' ++ imap (fallback_op d caption) items, inr ()).
Proof.
  intros Hfail. unfold on_album_dest, try_except. rewrite Hfail.
  apply album_fallback_run.
Qed.

Lemma album_fallback_attempts_all_witness :
  on_album_dest first_call_raises false true
    [photo_msg 1 (Some "hi"); pdf_msg 2 None] (Some "hi") 7 []
  = ([ForwardTo 7 [1; 2];
      SendFile 7 (OneFile (Some (MediaRef 1))) (Some "hi") true;
      SendFile 7 (OneFile (Some (MediaRef 2))) None true], inr ()).
Proof.
  apply (album_fallback_attempts_all first_call_raises false true
           [photo_msg 1 (Some "hi"); pdf_msg 2 None] (Some "hi") 7 []
           [ForwardTo 7 [1; 2]] ClientError).
  reflexivity.
Defined.

(** Even when every call raises, each item is attempted and the handler
    returns. *)
Example fallback_under_total_failure :
  on_album always_raises routes_1_to_7 true false photo_and_pdf []
  = ([SendFile 7 (Files [MediaRef 1]) (Some "hi") true;
      SendFile 7 (OneFile (Some (MediaRef 1))) (Some "hi") true;
      SendFile 7 (OneFile (Some (MediaRef 2))) None true], inr ()).
Proof. reflexivity. Qed.

(** ** Caption placement *)

(** [album_caption] is the text of the first item whose text is not
    empty. *)
Lemma album_caption_first items pre m rest (s : string) :
  items = pre ++ m :: rest →
  Forall (λ m', truthy_str (Message.message m') = false) pre →
  Message.message m = Some s → s ≠ "" →
  album_caption items = Some s.
Proof.
  intros -> Hpre Hm Hs. induction Hpre as [|m' pre Hm' _ IH]; simpl.
  - rewrite Hm. by destruct s.
  - by rewrite Hm'.
Qed.

Lemma album_caption_none items :
  Forall (λ m, truthy_str (Message.message m) = false) items →
  album_caption items = None.
Proof. induction 1 as [|m items Hm _ IH]; simpl; [done | by rewrite Hm]. Qed.

(** Every class seen has a bucket with at least one medium. *)
Lemma kinds_seen_nonempty items :
  Forall (λ k, media_files (bucket_of items k) ≠ []) (kinds_seen items).
Proof.
  apply Forall_forall. intros k Hk. unfold kinds_seen in Hk.
  rewrite first_seen_elem in Hk.
  apply list_elem_of_fmap in Hk as (m & -> & Hm).
  apply list_elem_of_filter in Hm as [Hmed Hm].
  assert (m ∈ bucket_of items (_bucket_kind m)) as Hin
    by (by apply list_elem_of_filter).
  intros Hnil.
  pose proof (bucket_media items (_bucket_kind m)) as Heq.
  rewrite Hnil in Heq. destruct (bucket_of items (_bucket_kind m)).
  - by apply not_elem_of_nil in Hin.
  - discriminate Heq.
Qed.

(** Of the uploads made for a bucket that is served to the end, the first
    carries the caption and no other does. *)
Lemma bucket_captioned_once d (c : string) files ops :
  files ≠ [] →
  sent_all_for d (Some c) files ops →
  length (filter (λ op, batch_caption op = Some c) ops) = 1%nat.
Proof.
  intros Hne (n & -> & _ & Hlen).
  destruct n as [|n]; [destruct files; [done | simpl in Hlen; lia]|].
  unfold bucket_uploads. cbn [seq fmap list_fmap].
  rewrite filter_cons, decide_True by done.
  rewrite filter_none; [done|].
  intros op Hop. apply list_elem_of_fmap in Hop as (j & -> & Hj).
  apply elem_of_seq in Hj. destruct j; [lia | discriminate].
Qed.

Lemma captioned_per_bucket d (c : string) (files : string → list Media)
    ks opss :
  Forall2 (λ k ops, sent_all_for d (Some c) (files k) ops) ks opss →
  Forall (λ k, files k ≠ []) ks →
  length (filter (λ op, batch_caption op = Some c) (concat opss))
  = length ks.
Proof.
  induction 1 as [|k ops ks opss Hk _ IH]; intros Hne; [done|].
  apply Forall_cons in Hne as [Hk0 Hne].
  cbn [concat length]. rewrite filter_app, length_app, IH by done.
  by rewrite (bucket_captioned_once _ _ _ _ Hk0 Hk).
Qed.

(** C3 at a group of a captioned photo and a PDF, copy mode, a transport
    that never raises: two batches are uploaded, one per bucket, and both
    carry the caption, where the specification puts it on the first one
    only.  In general, in a copy that goes through, the batches that carry
    the caption are as many as the classes seen in the group. *)
Theorem caption_on_every_bucket :
  on_album never_raises routes_1_to_7 true false photo_and_pdf []
  = ([SendFile 7 (Files [MediaRef 1]) (Some "hi") true;
      SendFile 7 (Files [MediaRef 2]) (Some "hi") true], inr ())
  ∧ ∀ raises d items (c : string) h,
      (_send_album_copy raises d items (Some c) h).2 = inr () →
      ∃ ops,
        (_send_album_copy raises d items (Some c) h).1 = h ++ ops
        ∧ length (filter (λ op, batch_caption op = Some c) ops)
          = length (kinds_seen items).
Proof.
  split; [reflexivity|].
  intros raises d items c h Hok.
  destruct (send_album_copy_run raises d items (Some c) h)
    as (opss & r & Hrun & _ & Hall).
  rewrite Hrun in Hok |- *. exists (concat opss). split; [done|].
  apply (captioned_per_bucket d c (λ k, media_files (bucket_of items k))).
  - by apply Hall.
  - apply kinds_seen_nonempty.
Qed.

(** ** Items of a group that have text and no media *)

Lemma album_buckets_drops_no_media items :
  album_buckets (filter (λ m, Is_true (has_media m)) items)
  = album_buckets items.
Proof.
  induction items as [|m items IH] using rev_ind; [done|].
  rewrite filter_app, filter_cons, filter_nil, album_buckets_snoc.
  destruct (Message.media m) as [md|] eqn:Hmd.
  - rewrite decide_True by (unfold has_media; by rewrite Hmd).
    by rewrite album_buckets_snoc, Hmd, IH.
  - rewrite decide_False by (unfold has_media; rewrite Hmd; simpl; tauto).
    by rewrite app_nil_r.
Qed.



Section GroupCalls.

Variable raises : list Op → Op → bool.




End GroupCalls.

(** After a failed album forward the fallback calls [send_file] for each
    item, with no file for the item that has no media. *)
Example fallback_call_for_item_without_media :
  (on_album first_call_raises routes_1_to_7 false true photo_and_note []).1
  = [ForwardTo 7 [1; 2];
     SendFile 7 (OneFile (Some (MediaRef 1))) (Some "hi") true;
     SendFile 7 (OneFile None) None true].
Proof. reflexivity. Qed.



(** ** Mode resolution *)

(** C1 at a message outside any group with both modes enabled: the
    single-message handler forwards it.  With both flags set
    [on_new_message] behaves as with [forward] alone, while [on_album]
    behaves as with [copy] alone. *)
Theorem both_modes_single_is_forwarded :
  on_new_message never_raises routes_1_to_7 true true lone_text []
  = ([ForwardMessages 7 3 1], inr ())
  ∧ (∀ raises from_to_ids event,
       on_new_message raises from_to_ids true true event
       = on_new_message raises from_to_ids false true event)
  ∧ (∀ raises from_to_ids event,
       on_album raises from_to_ids true true event
       = on_album raises from_to_ids true false event).
Proof. repeat split. Qed.

(** C2 as stated fails: with neither mode enabled a message outside any
    group is still delivered. *)
Lemma neither_mode_single_is_delivered :
  (on_new_message never_raises routes_1_to_7 false false lone_text []).1
  ≠ [].
Proof. discriminate. Qed.

(** C2, as the code is designed: there is no inert mode.  With neither
    mode enabled nothing is rejected and nothing raises, and delivery
    goes on by one of the two modes: a message outside any group gets one
    delivery call (a copy or a forward of that message) for every
    destination of its chat, in order, and a group is handled as it is
    with one of the modes enabled. *)
Theorem neither_mode_not_inert raises from_to_ids event album h :
  (∃ ops,
     on_new_message raises from_to_ids false false event h
     = (h ++ ops, inr ())
     ∧ Forall2 (delivers_single (NewMessage.message event))
         (if truthy_id (Message.grouped_id (NewMessage.message event))
          then []
          else default [] (from_to_ids !! NewMessage.chat_id event))
         ops)
  ∧ (on_album raises from_to_ids false false album
     = on_album raises from_to_ids true false album
     ∨ on_album raises from_to_ids false false album
       = on_album raises from_to_ids false true album)
  ∧ (on_album raises from_to_ids false false album h).2 = inr ().
Proof.
  split; [|split].
  - destruct (truthy_id _) eqn:Hg.
    + exists []. unfold on_new_message. rewrite Hg. unfold mret, M_ret.
      rewrite app_nil_r. by split; [|constructor].
    + rewrite on_new_message_ungrouped by done. eexists. split; [done|].
      apply Forall2_fmap_r, Forall_Forall2_diag, Forall_forall.
      intros d _. cbn. by right.
  - by left.
  - apply on_album_returns.
Qed.

(** * Further properties *)

(** ** [str.strip] *)

Lemma append_cons c l s :
  String.append (String c l) s = String c (String.append l s).
Proof. reflexivity. Qed.

Lemma lstrip_by_split p s :
  ∃ l, s = String.append l (lstrip_by p s) ∧ all_chars p l = true.
Proof.
  induction s as [|c r (l & Hl & Hp)]; simpl.
  - by exists "".
  - destruct (p c) eqn:Hc.
    + exists (String c l). split; [rewrite append_cons; f_equal; exact Hl|].
      unfold all_chars in *. simpl. by rewrite Hc.
    + by exists "".
Qed.

Lemma rstrip_by_split p s :
  ∃ r, s = String.append (rstrip_by p s) r ∧ all_chars p r = true.
Proof.
  induction s as [|c s (r & Hr & Hp)]; [by exists ""|].
  rewrite rstrip_by_cons. destruct (rstrip_by p s) as [|c' s'] eqn:E.
  - simpl in Hr. subst s. destruct (p c) eqn:Hc.
    + exists (String c r). split; [done|].
      unfold all_chars in *. simpl. by rewrite Hc.
    + exists r. by split.
  - exists r. split; [|done]. rewrite append_cons. f_equal. exact Hr.
Qed.

Lemma rstrip_by_last p s :
  match last_char (rstrip_by p s) with
  | Some c => p c = false
  | None => True
  end.
Proof.
  induction s as [|c s IH]; [done|].
  rewrite rstrip_by_cons. destruct (rstrip_by p s) as [|c' s'] eqn:E.
  - destruct (p c) eqn:Hc; simpl; done.
  - exact IH.
Qed.

Lemma rstrip_by_first p c s :
  p c = false → first_char (rstrip_by p (String c s)) = Some c.
Proof.
  intros Hc. rewrite rstrip_by_cons.
  destruct (rstrip_by p s); [by rewrite Hc | done].
Qed.

(** [s.strip()] is [s] without a run of whitespace at each end, and what
    is left neither starts nor ends with whitespace. *)
Theorem strip_spec s :
  ∃ l r,
    s = String.append l (String.append (strip s) r)
    ∧ all_chars isspace l = true
    ∧ all_chars isspace r = true
    ∧ match first_char (strip s), last_char (strip s) with
      | Some a, Some b => isspace a = false ∧ isspace b = false
      | None, None => strip s = ""
      | _, _ => False
      end.
Proof.
  destruct (lstrip_by_split isspace s) as (l & Hl & Hpl).
  destruct (rstrip_by_split isspace (lstrip_by isspace s)) as (r & Hr & Hpr).
  exists l, r. unfold strip. split; [by rewrite <- Hr|]. split; [done|].
  split; [done|].
  pose proof (lstrip_by_head isspace s) as Hhd.
  pose proof (rstrip_by_last isspace (lstrip_by isspace s)) as Hlast.
  destruct (lstrip_by isspace s) as [|c t]; [done|].
  rewrite (rstrip_by_first _ _ _ Hhd).
  destruct (last_char _) as [b|] eqn:Hb; [done|].
  pose proof (rstrip_by_first isspace c t Hhd) as Hf.
  destruct (rstrip_by isspace (String c t)) as [|c' [|c'' t']];
    simpl in *; try discriminate.
  revert Hb. clear. revert c''. induction t' as [|x t' IH]; intros c''; [done|].
  simpl. apply IH.
Qed.

(** Whitespace around an identifier makes no difference to [strip]. *)
Lemma lstrip_by_pad p l s :
  all_chars p l = true → lstrip_by p (String.append l s) = lstrip_by p s.
Proof.
  unfold all_chars. induction l as [|c l IH]; simpl; [done|].
  intros [Hc Hl]%andb_prop. rewrite Hc. by apply IH.
Qed.

Lemma rstrip_by_all p r : all_chars p r = true → rstrip_by p r = "".
Proof.
  unfold all_chars. induction r as [|c r IH]; [done|]. simpl.
  intros [Hc Hr]%andb_prop. by rewrite (IH Hr), Hc.
Qed.

Lemma rstrip_by_pad p s r :
  all_chars p r = true → rstrip_by p (String.append s r) = rstrip_by p s.
Proof.
  intros Hr. induction s as [|c s IH].
  - simpl. by apply rstrip_by_all.
  - change (String.append (String c s) r) with (String c (String.append s r)).
    by rewrite !rstrip_by_cons, IH.
Qed.

Lemma lstrip_by_all p r : all_chars p r = true → lstrip_by p r = "".
Proof.
  unfold all_chars. induction r as [|c r IH]; [done|]. simpl.
  intros [Hc Hr]%andb_prop. rewrite Hc. by apply IH.
Qed.

Lemma strip_pad l s r :
  all_chars isspace l = true → all_chars isspace r = true →
  strip (String.append l (String.append s r)) = strip s.
Proof.
  intros Hl Hr. unfold strip. rewrite lstrip_by_pad by done.
  induction s as [|c s IH].
  - simpl. by rewrite lstrip_by_all.
  - change (String.append (String c s) r) with (String c (String.append s r)).
    cbn [lstrip_by]. destruct (isspace c); [exact IH|].
    by apply (rstrip_by_pad isspace (String c s)).
Qed.

(** ** Decimal numerals *)

Lemma isdecimal_props c :
  isdecimal_char c = true →
  isspace c = false ∧ isdigit_char c = true
  ∧ c ≠ "-"%char ∧ c ≠ "+"%char ∧ c ≠ "t"%char ∧ c ≠ "h"%char.
Proof.
  destruct c as [[] [] [] [] [] [] [] []]; intros H; try discriminate H;
    repeat split; discriminate.
Qed.

Lemma uint_str_decimal d :
  all_chars isdecimal_char (NilEmpty.string_of_uint d) = true.
Proof. unfold all_chars. induction d; simpl; auto. Qed.

Lemma uint_str_first d :
  d ≠ Decimal.Nil →
  ∃ c r, NilEmpty.string_of_uint d = String c r ∧ isdecimal_char c = true.
Proof. destruct d; intros Hd; [done|..]; simpl; eauto. Qed.

Lemma rstrip_by_clean p s :
  all_chars (λ c, negb (p c)) s = true → rstrip_by p s = s.
Proof.
  unfold all_chars. induction s as [|c s IH]; [done|]. simpl.
  intros [Hc Hs]%andb_prop. rewrite (IH Hs).
  destruct s; [|done]. by destruct (p c).
Qed.

Lemma strip_clean s :
  all_chars (λ c, negb (isspace c)) s = true → strip s = s.
Proof.
  intros Hs. unfold strip.
  assert (lstrip_by isspace s = s) as ->; [|by apply rstrip_by_clean].
  destruct s as [|c s]; [done|]. unfold all_chars in Hs. simpl in *.
  apply andb_prop in Hs as [Hc _]. by destruct (isspace c).
Qed.

Lemma all_chars_impl (p q : ascii → bool) s :
  (∀ c, p c = true → q c = true) →
  all_chars p s = true → all_chars q s = true.
Proof.
  intros Hpq. unfold all_chars. induction s as [|c s IH]; [done|]. simpl.
  intros [Hc Hs]%andb_prop. by rewrite (Hpq _ Hc), IH.
Qed.

Lemma int_digits_decimal c r acc prev :
  isdecimal_char c = true →
  int_digits (String c r) acc prev
  = int_digits r (acc * 10 + (ord c - 48)) true.
Proof. intros Hc. simpl. by rewrite Hc. Qed.

Lemma int_digits_uint_acc d acc :
  int_digits (NilEmpty.string_of_uint d) (Z.pos acc) true
  = Some (Z.pos (Pos.of_uint_acc d acc)).
Proof.
  revert acc. induction d as [|d IH|d IH|d IH|d IH|d IH|d IH|d IH|d IH|d IH|d IH];
    intros acc; [done|..];
    cbn [NilEmpty.string_of_uint Pos.of_uint_acc];
    rewrite int_digits_decimal by reflexivity;
    rewrite <- IH; f_equal; vm_compute (ord _); lia.
Qed.

Lemma int_digits_uint d prev :
  (d = Decimal.Nil → prev = true) →
  int_digits (NilEmpty.string_of_uint d) 0 prev
  = Some (Z.of_N (Pos.of_uint d)).
Proof.
  revert prev.
  induction d as [|d IH|d IH|d IH|d IH|d IH|d IH|d IH|d IH|d IH|d IH];
    intros prev Hprev; [by rewrite Hprev|..];
    cbn [NilEmpty.string_of_uint Pos.of_uint];
    rewrite int_digits_decimal by reflexivity;
    [by apply IH | apply (int_digits_uint_acc d) ..].
Qed.

Lemma all_chars_cons p c s :
  all_chars p (String c s) = p c && all_chars p s.
Proof. reflexivity. Qed.

Lemma isdecimal_not_space_int c :
  isdecimal_char c = true → isspace_int c = false.
Proof.
  destruct c as [[] [] [] [] [] [] [] []]; intros H; try discriminate H;
    reflexivity.
Qed.

Lemma int_strip_clean s :
  all_chars (λ c, negb (isspace_int c)) s = true →
  rstrip_by isspace_int (lstrip_by isspace_int s) = s.
Proof.
  intros Hs.
  assert (lstrip_by isspace_int s = s) as ->; [|by apply rstrip_by_clean].
  destruct s as [|c s]; [done|]. unfold all_chars in Hs. simpl in *.
  apply andb_prop in Hs as [Hc _]. by destruct (isspace_int c).
Qed.

Lemma decimal_clean s :
  all_chars isdecimal_char s = true →
  all_chars (λ c, negb (isspace_int c)) s = true.
Proof.
  apply all_chars_impl. intros c Hc.
  by rewrite (isdecimal_not_space_int c Hc).
Qed.

(** [py_int] once the surrounding whitespace is gone and the digits are
    within the limit. *)
Lemma py_int_clean (t : string) :
  all_chars (λ c, negb (isspace_int c)) t = true →
  (digit_count (int_unsigned t) ≤ int_max_str_digits)%nat →
  py_int t
  = if int_negative t then Z.opp <$> int_digits (int_unsigned t) 0 false
    else int_digits (int_unsigned t) 0 false.
Proof.
  intros Ht Hn. unfold py_int. cbv zeta. rewrite (int_strip_clean t Ht).
  by rewrite (proj2 (Nat.ltb_ge _ _) Hn).
Qed.

Lemma unsigned_first c r :
  isdecimal_char c = true →
  int_unsigned (String c r) = String c r
  ∧ int_negative (String c r) = false.
Proof.
  destruct c as [[] [] [] [] [] [] [] []]; intros H; try discriminate H;
    by split.
Qed.

Lemma py_int_uint d :
  d ≠ Decimal.Nil →
  (digit_count (NilEmpty.string_of_uint d) ≤ int_max_str_digits)%nat →
  py_int (NilEmpty.string_of_uint d) = Some (Z.of_N (Pos.of_uint d)).
Proof.
  intros Hd Hn. destruct (uint_str_first d Hd) as (c & r & Hs & Hc).
  rewrite <- (int_digits_uint d false) by done.
  pose proof (decimal_clean _ (uint_str_decimal d)) as Hclean.
  revert Hn Hclean. rewrite Hs. intros Hn Hclean.
  destruct (unsigned_first c r Hc) as [Hu Hneg].
  rewrite py_int_clean; rewrite ?Hu, ?Hneg; done.
Qed.

Lemma py_int_neg_uint d :
  d ≠ Decimal.Nil →
  (digit_count (NilEmpty.string_of_uint d) ≤ int_max_str_digits)%nat →
  py_int (String "-" (NilEmpty.string_of_uint d))
  = Some (- Z.of_N (Pos.of_uint d)).
Proof.
  intros Hd Hn. rewrite py_int_clean.
  - change (int_negative (String "-" (NilEmpty.string_of_uint d))) with true.
    change (int_unsigned (String "-" (NilEmpty.string_of_uint d)))
      with (NilEmpty.string_of_uint d).
    by rewrite int_digits_uint.
  - rewrite all_chars_cons. apply andb_true_intro. split; [reflexivity|].
    apply decimal_clean, uint_str_decimal.
  - exact Hn.
Qed.

Lemma NilZero_nonnil d :
  d ≠ Decimal.Nil → NilZero.string_of_uint d = NilEmpty.string_of_uint d.
Proof. by destruct d. Qed.

Lemma py_str_int_pos p :
  py_str_int (Z.pos p) = NilEmpty.string_of_uint (Pos.to_uint p).
Proof. apply NilZero_nonnil, Unsigned.to_uint_nonnil. Qed.

Lemma py_str_int_neg p :
  py_str_int (Z.neg p) = String "-" (NilEmpty.string_of_uint (Pos.to_uint p)).
Proof.
  unfold py_str_int. cbn [Z.to_int NilZero.string_of_int]. f_equal.
  apply NilZero_nonnil, Unsigned.to_uint_nonnil.
Qed.

(** [int(str(z)) = z], for [z] within the digit limit. *)
Lemma py_int_str z : within_int_limit z → py_int (py_str_int z) = Some z.
Proof.
  unfold within_int_limit. destruct z as [|p|p]; [reflexivity|..].
  - rewrite py_str_int_pos. intros Hn.
    rewrite py_int_uint by (done || apply Unsigned.to_uint_nonnil).
    by rewrite Unsigned.of_to.
  - rewrite py_str_int_neg. intros Hn.
    rewrite py_int_neg_uint by (done || apply Unsigned.to_uint_nonnil).
    by rewrite Unsigned.of_to.
Qed.

Lemma first_decimal c r :
  isdecimal_char c = true →
  startswith (String c r) "t.me/" = false
  ∧ startswith (String c r) "https://t.me/" = false
  ∧ lstrip "-" (String c r) = String c r.
Proof.
  destruct c as [[] [] [] [] [] [] [] []]; intros H; try discriminate H;
    repeat split; reflexivity.
Qed.

Lemma isdigit_decimal c r :
  all_chars isdecimal_char (String c r) = true → isdigit (String c r) = true.
Proof.
  intros H. unfold isdigit.
  apply (all_chars_impl isdecimal_char isdigit_char); [|done].
  intros c' Hc'. by destruct (isdecimal_props c' Hc') as (_ & -> & _).
Qed.

Lemma numeral_tests z :
  strip (py_str_int z) = py_str_int z
  ∧ startswith (py_str_int z) "t.me/"
    || startswith (py_str_int z) "https://t.me/" = false
  ∧ startswith (py_str_int z) "-100"
    || isdigit (lstrip "-" (py_str_int z)) = true.
Proof.
  destruct z as [|p|p]; [done|..].
  - rewrite py_str_int_pos.
    destruct (uint_str_first _ (Unsigned.to_uint_nonnil p))
      as (c & r & Hs & Hc).
    pose proof (uint_str_decimal (Pos.to_uint p)) as Hall.
    rewrite Hs in Hall |- *.
    destruct (first_decimal c r Hc) as (-> & -> & ->).
    rewrite (isdigit_decimal c r Hall), orb_true_r.
    split; [|done]. apply strip_clean.
    apply (all_chars_impl isdecimal_char); [|done].
    intros c' Hc'. by destruct (isdecimal_props c' Hc') as (-> & _).
  - rewrite py_str_int_neg.
    destruct (uint_str_first _ (Unsigned.to_uint_nonnil p))
      as (c & r & Hs & Hc).
    pose proof (uint_str_decimal (Pos.to_uint p)) as Hall.
    rewrite Hs in Hall |- *.
    destruct (first_decimal c r Hc) as (_ & _ & Hl).
    change (lstrip "-" (String "-" (String c r)))
      with (lstrip "-" (String c r)).
    rewrite Hl, (isdigit_decimal c r Hall), orb_true_r.
    split; [|done]. apply strip_clean.
    rewrite all_chars_cons. apply andb_true_intro. split; [reflexivity|].
    apply (all_chars_impl isdecimal_char); [|done].
    intros c' Hc'. by destruct (isdecimal_props c' Hc') as (-> & _).
Qed.

Section Resolution.

Variable raises : list Op → Op → bool.
Variable entity_id : list Op → string → Z.

Lemma resolve_chat_id_numeral z h :
  within_int_limit z →
  _resolve_chat_id raises entity_id (py_str_int z) h = (h, inr z).
Proof.
  intros Hz. destruct (numeral_tests z) as (Hs & Hu & Hn).
  unfold _resolve_chat_id. cbv zeta. by rewrite Hs, Hu, Hn, py_int_str.
Qed.

Lemma resolve_chat_id_run s h :
  ∃ r, _resolve_chat_id raises entity_id s h = (h ++ lookups_of [s], r).
Proof.
  unfold lookups_of, needs_lookup, _resolve_chat_id. cbv zeta.
  rewrite filter_cons, filter_nil.
  destruct (startswith (strip s) "t.me/" || startswith (strip s) "https://t.me/");
    [cbn; eauto|].
  destruct (startswith (strip s) "-100" || isdigit (lstrip "-" (strip s))).
  - cbn. rewrite app_nil_r. destruct (py_int (strip s)); eauto.
  - cbn. destruct (startswith (strip s) "@"); eauto.
Qed.

End Resolution.

(** [_resolve_chat_id] has two behaviours.  An identifier that is not a
    t.me URL and that starts with [-100] or is made of digits after its
    leading dashes never reaches the client: the result is [int] of the
    stripped identifier, or [ValueError].  Any other identifier costs one
    [get_entity] call, on the stripped identifier, whose outcome is the
    result. *)
Theorem resolve_chat_id_cases raises entity_id s h :
  _resolve_chat_id raises entity_id s h
  = if needs_lookup s
    then (h ++ [GetEntity (strip s)],
          if raises h (GetEntity (strip s)) then inl ClientError
          else inr (entity_id h (strip s)))
    else (h, match py_int (strip s) with
             | Some z => inr z
             | None => inl ValueError
             end).
Proof.
  unfold needs_lookup, _resolve_chat_id. cbv zeta.
  destruct (startswith (strip s) "t.me/" || startswith (strip s) "https://t.me/");
    [reflexivity|].
  destruct (startswith (strip s) "-100" || isdigit (lstrip "-" (strip s))).
  - cbn. by destruct (py_int (strip s)).
  - cbn. by destruct (startswith (strip s) "@").
Qed.

(** Every integer of no more decimal digits than [int] accepts (4300),
    written as Python prints it and with any whitespace around it,
    resolves to itself, and the client is not called. *)
Theorem resolve_chat_id_decimal raises entity_id z l r h :
  within_int_limit z →
  all_chars isspace l = true →
  all_chars isspace r = true →
  _resolve_chat_id raises entity_id
    (String.append l (String.append (py_str_int z) r)) h
  = (h, inr z).
Proof.
  intros Hlim Hl Hr.
  pose proof (resolve_chat_id_numeral raises entity_id z h Hlim) as Hz.
  unfold _resolve_chat_id in *. cbv zeta in *.
  by rewrite (strip_pad l _ r Hl Hr).
Qed.

Lemma resolve_chat_id_decimal_witness :
  _resolve_chat_id always_raises no_entities
    (String.append blank (String.append (py_str_int (-1001234567890)) blank))
    []
  = ([], inr (-1001234567890)).
Proof.
  apply (resolve_chat_id_decimal always_raises no_entities
           (-1001234567890) blank blank []);
    [unfold within_int_limit; compute_done | reflexivity | reflexivity].
Defined.

(** ** Building the routing table *)

Lemma lookups_of_app a b : lookups_of (a ++ b) = lookups_of a ++ lookups_of b.
Proof. unfold lookups_of. by rewrite filter_app, fmap_app. Qed.

Lemma lookups_of_cons i rest :
  lookups_of (i :: rest) = lookups_of [i] ++ lookups_of rest.
Proof. apply (lookups_of_app [i]). Qed.

Lemma lookups_of_identifiers src dests items :
  lookups_of (identifiers ((src, dests) :: items))
  = lookups_of [src] ++ lookups_of dests ++ lookups_of (identifiers items).
Proof.
  unfold identifiers. rewrite fmap_cons. cbn [concat fst snd].
  by rewrite lookups_of_app, lookups_of_cons, <- app_assoc.
Qed.

Section Routing.

Variable raises : list Op → Op → bool.
Variable entity_id : list Op → string → Z.

Lemma resolve_dests_run src_id dests out h :
  ∃ ops r,
    resolve_dests raises entity_id src_id dests out h = (h ++ ops, r)
    ∧ ops `prefix_of` lookups_of dests
    ∧ (∀ v, r = inr v → ops = lookups_of dests).
Proof.
  revert out h. induction dests as [|d dests IH]; intros out h.
  - exists [], (inr out). cbn. by rewrite app_nil_r.
  - cbn [resolve_dests]. rewrite bind_run, lookups_of_cons.
    destruct (resolve_chat_id_run raises entity_id d h) as (r0 & ->).
    destruct r0 as [e|z].
    + exists (lookups_of [d]), (inl e). split; [done|].
      split; [by apply prefix_app_r | done].
    + destruct (IH (alter (λ l, l ++ [z]) src_id out) (h ++ lookups_of [d]))
        as (ops & r & -> & Hpre & Hall).
      exists (lookups_of [d] ++ ops), r. rewrite <- app_assoc.
      split; [done|]. split; [by apply prefix_app|].
      intros v Hv. by rewrite (Hall v Hv).
Qed.

Lemma resolve_items_run items out h :
  ∃ ops r,
    resolve_items raises entity_id items out h = (h ++ ops, r)
    ∧ ops `prefix_of` lookups_of (identifiers items)
    ∧ (∀ v, r = inr v → ops = lookups_of (identifiers items)).
Proof.
  revert out h. induction items as [|[src dests] items IH]; intros out h.
  - exists [], (inr out). cbn. by rewrite app_nil_r.
  - cbn [resolve_items]. rewrite bind_run, lookups_of_identifiers.
    destruct (resolve_chat_id_run raises entity_id src h) as (r0 & ->).
    destruct r0 as [e|src_id].
    { exists (lookups_of [src]), (inl e). split; [done|].
      split; [by apply prefix_app_r | done]. }
    rewrite bind_run.
    destruct (resolve_dests_run src_id dests (<[src_id := []]> out)
                (h ++ lookups_of [src])) as (ops1 & r1 & -> & Hpre1 & Hall1).
    destruct r1 as [e|out1].
    { exists (lookups_of [src] ++ ops1), (inl e). rewrite <- app_assoc.
      split; [done|]. split; [|done].
      by apply prefix_app, prefix_app_r. }
    rewrite (Hall1 out1 eq_refl).
    destruct (IH out1 ((h ++ lookups_of [src]) ++ lookups_of dests))
      as (ops & r & -> & Hpre & Hall).
    exists (lookups_of [src] ++ lookups_of dests ++ ops), r.
    rewrite <- !app_assoc. split; [done|].
    split; [by do 2 apply prefix_app|].
    intros v Hv. by rewrite (Hall v Hv).
Qed.

Lemma resolve_chat_id_offline i z h :
  resolves_offline i z →
  _resolve_chat_id raises entity_id i h = (h, inr z).
Proof.
  unfold resolves_offline, needs_lookup. cbv zeta. intros [Hn Hz].
  apply orb_false_elim in Hn as [Hu Hn]. apply negb_false_iff in Hn.
  unfold _resolve_chat_id. cbv zeta. by rewrite Hu, Hn, Hz.
Qed.

Lemma resolve_all_offline ids zs h :
  Forall2 resolves_offline ids zs →
  resolve_all raises entity_id ids h = (h, inr zs).
Proof.
  intros Hall. revert h. induction Hall as [|i z ids zs Hi _ IH];
    intros h; [done|].
  cbn [resolve_all]. rewrite bind_run, (resolve_chat_id_offline i z h Hi).
  cbn beta iota. by rewrite bind_run, IH.
Qed.

(** The inner loop appends, one by one, what [resolve_all] gives at
    once. *)
Lemma resolve_dests_alt src_id dests out l h :
  out !! src_id = Some l →
  resolve_dests raises entity_id src_id dests out h
  = (resolve_all raises entity_id dests
     ≫= λ rs, mret (<[src_id := l ++ rs]> out)) h.
Proof.
  revert out l h. induction dests as [|d dests IH]; intros out l h Hl.
  - cbn [resolve_dests resolve_all]. rewrite bind_run.
    unfold mret, M_ret. by rewrite app_nil_r, insert_id.
  - cbn [resolve_dests resolve_all]. rewrite !bind_run.
    destruct (_resolve_chat_id raises entity_id d h) as [h1 [e|z]]; [done|].
    rewrite (IH _ (l ++ [z])) by (by rewrite lookup_alter_eq, Hl).
    rewrite !bind_run.
    destruct (resolve_all raises entity_id dests h1) as [h2 [e|zs]]; [done|].
    cbn. by rewrite insert_alter_eq, <- app_assoc.
Qed.

Lemma resolve_items_offline conf routes out h :
  Forall2 (λ (sd : string * list string) (zd : Z * list Z),
             resolves_offline sd.1 zd.1
             ∧ Forall2 resolves_offline sd.2 zd.2) conf routes →
  resolve_items raises entity_id conf out h
  = (h, inr (foldl (λ out sd, <[sd.1 := sd.2]> out) out routes)).
Proof.
  intros Hall. revert out h.
  induction Hall as [|[src dests] [z zs] conf routes [Hs Hd] _ IH];
    intros out h; [done|].
  cbn [resolve_items foldl fst snd] in *. rewrite bind_run.
  rewrite (resolve_chat_id_offline src z h Hs). cbn beta iota.
  rewrite bind_run.
  rewrite (resolve_dests_alt z dests _ []) by apply lookup_insert_eq.
  rewrite bind_run, (resolve_all_offline dests zs h Hd). cbn.
  by rewrite insert_insert_eq, IH.
Qed.

Lemma mret_run {A} (x : A) (h : list Op) : (mret x : M A) h = (h, inr x).
Proof. reflexivity. Qed.

Lemma resolve_all_app a b h :
  resolve_all raises entity_id (a ++ b) h
  = (resolve_all raises entity_id a ≫= λ xs,
     resolve_all raises entity_id b ≫= λ ys, mret (xs ++ ys)) h.
Proof.
  revert h. induction a as [|i a IH]; intros h.
  - cbn [app resolve_all]. rewrite bind_run, mret_run, bind_run.
    by destruct (resolve_all raises entity_id b h) as [h1 [e|ys]].
  - cbn [app resolve_all]. rewrite !bind_run.
    destruct (_resolve_chat_id raises entity_id i h) as [h1 [e|z]]; [done|].
    rewrite !bind_run, IH, bind_run.
    destruct (resolve_all raises entity_id a h1) as [h2 [e|xs]]; [done|].
    rewrite mret_run, !bind_run.
    by destruct (resolve_all raises entity_id b h2) as [h3 [e|ys]].
Qed.

(** The two loops of [_resolve_from_to] resolve the identifiers of the
    configuration one after the other: same calls, same failure. *)
Lemma resolve_items_all items out h :
  match resolve_all raises entity_id (identifiers items) h with
  | (h', inl e) => resolve_items raises entity_id items out h = (h', inl e)
  | (h', inr _) =>
      ∃ out', resolve_items raises entity_id items out h = (h', inr out')
  end.
Proof.
  revert out h. induction items as [|[src dests] items IH]; intros out h.
  - cbn. by exists out.
  - unfold identifiers. rewrite fmap_cons. cbn [concat fst snd].
    fold (identifiers items).
    change ((src :: dests) ++ identifiers items)
      with (src :: (dests ++ identifiers items)).
    cbn [resolve_all resolve_items]. rewrite !bind_run.
    destruct (_resolve_chat_id raises entity_id src h) as [h1 [e|z]]; [done|].
    rewrite !bind_run, resolve_all_app, bind_run.
    rewrite (resolve_dests_alt z dests _ []) by apply lookup_insert_eq.
    rewrite bind_run.
    destruct (resolve_all raises entity_id dests h1) as [h2 [e|zs]]; [done|].
    rewrite mret_run, bind_run.
    specialize (IH (<[z:=[] ++ zs]> (<[z:=[]]> out)) h2).
    destruct (resolve_all raises entity_id (identifiers items) h2)
      as [h3 [e|ws]]; [done|].
    by rewrite !mret_run.
Qed.

(** Resolving a list of identifiers: either all of them resolve, or the
    run ends with the first one whose resolution raises. *)
Lemma resolve_all_stops ids h :
  (∃ zs, resolve_all raises entity_id ids h = (h ++ lookups_of ids, inr zs))
  ∨ (∃ pre i post e zs,
       ids = pre ++ i :: post
       ∧ resolve_all raises entity_id pre h = (h ++ lookups_of pre, inr zs)
       ∧ _resolve_chat_id raises entity_id i (h ++ lookups_of pre)
         = (h ++ lookups_of (pre ++ [i]), inl e)
       ∧ resolve_all raises entity_id ids h
         = (h ++ lookups_of (pre ++ [i]), inl e)).
Proof.
  revert h. induction ids as [|i ids IH]; intros h.
  - left. exists []. cbn. by rewrite app_nil_r.
  - cbn [resolve_all]. rewrite bind_run.
    destruct (resolve_chat_id_run raises entity_id i h) as (r0 & Hi).
    rewrite Hi. destruct r0 as [e|z].
    + right. exists [], i, ids, e, []. cbn [app].
      change (lookups_of []) with (@nil Op). rewrite !app_nil_r.
      by rewrite Hi.
    + cbv beta iota. rewrite bind_run.
      destruct (IH (h ++ lookups_of [i]))
        as [(zs & Hall)|(pre & j & post & e & zs & -> & Hpre & Hj & Hall)].
      * left. exists (z :: zs).
        by rewrite Hall, mret_run, (lookups_of_cons i ids), app_assoc.
      * right. exists (i :: pre), j, post, e, (z :: zs).
        split; [done|]. cbn [resolve_all app].
        rewrite (lookups_of_cons i (pre ++ [j])), (lookups_of_cons i pre).
        rewrite !app_assoc, bind_run, Hi. cbv beta iota.
        by rewrite bind_run, Hpre, mret_run, Hall, Hj.
Qed.

End Routing.

Lemma foldl_insert_other (post : list (Z * list Z)) (m : gmap Z (list Z)) z :
  z ∉ post.*1 →
  foldl (λ out sd, <[sd.1 := sd.2]> out) m post !! z = m !! z.
Proof.
  revert m. induction post as [|[z' zs'] post IH]; intros m Hz; [done|].
  cbn [foldl fst snd]. rewrite fmap_cons, not_elem_of_cons in Hz.
  destruct Hz as [Hne Hz]. rewrite IH by done. by rewrite lookup_insert_ne.
Qed.

Lemma table_of_last pre z zs post :
  z ∉ post.*1 →
  table_of (pre ++ (z, zs) :: post) !! z = Some zs.
Proof.
  intros Hz. unfold table_of. rewrite foldl_app. cbn [foldl fst snd].
  rewrite foldl_insert_other by done. apply lookup_insert_eq.
Qed.

(** [_resolve_from_to] resolves the identifiers of the configuration one
    after the other, each source followed by its destinations, and calls
    the client only for those that need a lookup.  Either every
    identifier resolves, and then it returns after the lookups of all of
    them; or it stops at the first identifier whose resolution raises:
    the identifiers before it have all resolved, the calls made are their
    lookups and that of the failing identifier, nothing is asked about
    the identifiers after it, and the exception is the result. *)
Theorem resolve_from_to_lookups raises entity_id conf h :
  (∃ out zs,
     _resolve_from_to raises entity_id conf h
     = (h ++ lookups_of (identifiers conf), inr out)
     ∧ resolve_all raises entity_id (identifiers conf) h
       = (h ++ lookups_of (identifiers conf), inr zs))
  ∨ (∃ pre i post e zs,
       identifiers conf = pre ++ i :: post
       ∧ resolve_all raises entity_id pre h = (h ++ lookups_of pre, inr zs)
       ∧ _resolve_chat_id raises entity_id i (h ++ lookups_of pre)
         = (h ++ lookups_of (pre ++ [i]), inl e)
       ∧ _resolve_from_to raises entity_id conf h
         = (h ++ lookups_of (pre ++ [i]), inl e)).
Proof.
  unfold _resolve_from_to.
  pose proof (resolve_items_all raises entity_id conf ∅ h) as Hitems.
  destruct (resolve_all_stops raises entity_id (identifiers conf) h)
    as [(zs & Hall)|(pre & i & post & e & zs & Hids & Hpre & Hi & Hall)].
  - rewrite Hall in Hitems. destruct Hitems as (out & Hout).
    left. by exists out, zs.
  - rewrite Hall in Hitems. right. by exists pre, i, post, e, zs.
Qed.

(** A configuration whose second source cannot be looked up: the first
    entry is resolved, the lookup of the second source raises, and its
    destination is never asked about. *)
Example resolve_from_to_stops_at_failure :
  _resolve_from_to (λ h _, match h with [_; _] => true | _ => false end)
    no_entities [("@a", ["7"; "@b"]); ("@c", ["@d"])] []
  = ([GetEntity "@a"; GetEntity "@b"; GetEntity "@c"], inl ClientError).
Proof. reflexivity. Qed.

(** When every identifier of the configuration is settled without the
    client, [_resolve_from_to] makes no call and returns the table in
    which each entry has been stored in turn: a source that comes up
    more than once (under any spelling) keeps the destinations of its
    last entry only. *)
Theorem resolve_from_to_offline raises entity_id conf routes h :
  Forall2 (λ (sd : string * list string) (zd : Z * list Z),
             resolves_offline sd.1 zd.1
             ∧ Forall2 resolves_offline sd.2 zd.2) conf routes →
  _resolve_from_to raises entity_id conf h = (h, inr (table_of routes))
  ∧ ∀ pre z zs post,
      routes = pre ++ (z, zs) :: post → z ∉ post.*1 →
      table_of routes !! z = Some zs.
Proof.
  intros Hall. split.
  - unfold _resolve_from_to, table_of. by apply resolve_items_offline.
  - intros pre z zs post -> Hz. by apply table_of_last.
Qed.

Lemma resolve_from_to_offline_witness :
  _resolve_from_to always_raises no_entities padded_conf []
  = ([], inr (table_of [(-1001, [7; 8]); (-1001, [9]); (12, [])]))
  ∧ ∀ pre z zs post,
      [(-1001, [7; 8]); (-1001, [9]); (12, [])] = pre ++ (z, zs) :: post →
      z ∉ post.*1 →
      table_of [(-1001, [7; 8]); (-1001, [9]); (12, [])] !! z = Some zs.
Proof.
  apply (resolve_from_to_offline always_raises no_entities padded_conf
           [(-1001, [7; 8]); (-1001, [9]); (12, [])] []).
  repeat constructor; reflexivity.
Defined.

Lemma numeral_offline z :
  within_int_limit z → resolves_offline (py_str_int z) z.
Proof.
  intros Hz. destruct (numeral_tests z) as (Hs & Hu & Hn).
  unfold resolves_offline, needs_lookup. cbv zeta.
  by rewrite Hs, Hu, Hn, py_int_str.
Qed.

Lemma numeral_conf_offline routes :
  routes_within_int_limit routes →
  Forall2 (λ (sd : string * list string) (zd : Z * list Z),
             resolves_offline sd.1 zd.1
             ∧ Forall2 resolves_offline sd.2 zd.2)
    (numeral_conf routes) routes.
Proof.
  unfold numeral_conf, routes_within_int_limit. intros Hlim.
  apply Forall2_fmap_l, Forall_Forall2_diag.
  eapply Forall_impl; [exact Hlim|].
  intros [z zs] [Hz Hzs]. cbn [fst snd] in *.
  split; [by apply numeral_offline|].
  apply Forall2_fmap_l, Forall_Forall2_diag.
  eapply Forall_impl; [exact Hzs|]. intros z' Hz'. by apply numeral_offline.
Qed.

(** From configuration to delivery: with a configuration written with
    decimal numerals (none longer than [int] accepts) whose sources are
    distinct, the table is built without the client, and in copy mode a
    message outside any group that arrives from a configured source is
    sent once to each of the destinations listed for it, in their order,
    and to no other chat. *)
Theorem numeral_routes_deliver raises entity_id routes src dests msg h0 h :
  routes_within_int_limit routes →
  NoDup routes.*1 →
  (src, dests) ∈ routes →
  truthy_id (Message.grouped_id msg) = false →
  ∃ table,
    _resolve_from_to raises entity_id (numeral_conf routes) h0
    = (h0, inr table)
    ∧ on_new_message raises table true false (NewMessage.mk src msg) h
      = (h ++ ((λ d, SendMessage d (default "" (Message.message msg))
                       (Message.media msg)
                       (match Message.media msg with
                        | None => true | Some _ => false end)) <$> dests),
         inr ()).
Proof.
  intros Hlim Hnd Hin Hg. exists (table_of routes). split.
  - unfold _resolve_from_to, table_of.
    by apply resolve_items_offline, numeral_conf_offline.
  - rewrite on_new_message_ungrouped by done. cbn [NewMessage.chat_id].
    apply list_elem_of_split in Hin as (pre & post & ->).
    rewrite table_of_last; [done|].
    rewrite fmap_app, fmap_cons in Hnd.
    apply NoDup_app in Hnd as (_ & _ & Hnd).
    by apply NoDup_cons in Hnd as [Hnd _].
Qed.

Lemma numeral_routes_deliver_witness :
  ∃ table,
    _resolve_from_to always_raises no_entities
      (numeral_conf [(1, [7; 8]); (2, [9])]) []
    = ([], inr table)
    ∧ on_new_message always_raises table true false
        (NewMessage.mk 1 (text_msg 3 None "hola")) []
      = ([SendMessage 7 "hola" None true; SendMessage 8 "hola" None true],
         inr ()).
Proof.
  apply (numeral_routes_deliver always_raises no_entities
           [(1, [7; 8]); (2, [9])] 1 [7; 8] (text_msg 3 None "hola") [] []).
  - unfold routes_within_int_limit, within_int_limit. compute_done.
  - compute_done.
  - compute_done.
  - reflexivity.
Defined.

(** ** Loading the configuration *)

(** [_load_config] raises in these cases only: there is no file at the
    path ([FileNotFoundError] carrying the path); opening, decoding or
    parsing the file raises, and that exception comes out as it is; the
    parsed top-level value is not an object ([AttributeError] from
    [data.get]).  Every JSON object loads, whatever it holds. *)
Theorem load_config_errors fs path e :
  _load_config fs path = inl e
  ↔ (fs path = NoFile ∧ e = FileNotFoundError path)
    ∨ fs path = ReadFails e
    ∨ (∃ data, fs path = Json data ∧ (∀ d, data ≠ JDict d)
               ∧ e = AttributeError).
Proof.
  unfold _load_config. destruct (fs path) as [|e'|data] eqn:Hfs.
  - split; [intros [= <-]; by left | intros [[_ ->]|[?|(? & ? & _)]]; done].
  - split; [intros [= <-]; right; by left
           | intros [[? _]|[[= ->]|(? & ? & _)]]; done].
  - destruct data as [| | | | | |d]; cbn;
      try (split; [intros [= <-]; right; right; eexists; by repeat split
                  | intros [[? _]|[?|(? & [= <-] & _ & ->)]]; done]).
    split; [done|]. intros [[? _]|[?|(? & [= <-] & Hd & _)]]; try done.
    by destruct (Hd d).
Qed.

(** What a JSON object loads to: [copy] is the truth value of the value
    under ["copy"], and true when the key is absent; [forward] is the
    truth value of the value under ["forward"], and false when the key is
    absent; the mapping is the value under ["from_to"] when that value is
    truthy, of whatever type it is, and the empty dict when the key is
    absent or its value is falsy. *)
Theorem load_config_object fs path (d : gmap string json) :
  fs path = Json (JDict d) →
  _load_config fs path
  = inr {| copy := match d !! "copy" with
                   | Some v => py_bool v
                   | None => true
                   end;
           forward := match d !! "forward" with
                      | Some v => py_bool v
                      | None => false
                      end;
           from_to := match d !! "from_to" with
                      | Some v => if py_bool v then v else JDict ∅
                      | None => JDict ∅
                      end |}.
Proof.
  intros Hfs. unfold _load_config. rewrite Hfs. cbn.
  destruct (d !! "copy"), (d !! "forward"), (d !! "from_to"); reflexivity.
Qed.

Lemma load_config_object_witness :
  _load_config (λ _, Json (JDict header_config)) "tgcf.config.json"
  = inr {| copy := true; forward := false;
           from_to := JDict {[ "@origen" := JList [JStr "@staging"] ]} |}.
Proof.
  apply (load_config_object (λ _, Json (JDict header_config))
           "tgcf.config.json" header_config).
  reflexivity.
Defined.

(** ** Making the client *)

Lemma new_client_not_exit session_error session i h c :
  new_client session_error session i h ≠ SysExit c.
Proof.
  unfold new_client. destruct ((i =? 0) || String.eqb h "").
  - destruct session as [x|x]; cbn; [destruct (session_error _)|]; done.
  - destruct session as [x|x]; cbn; destruct (session_error _); done.
Qed.

Lemma new_client_made session_error session i h c :
  new_client session_error session i h = Made c →
  c = mkTelegramClient session i h ∧ i ≠ 0 ∧ h ≠ ""
  ∧ session_error session = None.
Proof.
  unfold new_client. destruct ((i =? 0) || String.eqb h "") eqn:E.
  - destruct session as [x|x]; cbn; [destruct (session_error _)|]; done.
  - apply orb_false_elim in E as [Hi Hh].
    apply Z.eqb_neq in Hi. apply String.eqb_neq in Hh.
    destruct session as [x|x]; cbn; destruct (session_error _) eqn:Hse;
      try done; by intros [= <-].
Qed.

(** [_make_client] leaves through [sys.exit] only with status 1, and
    exactly when a string session is given while the API id is 0 or the
    API hash is missing or empty. *)
Theorem make_client_exit session_error i h s f c :
  _make_client session_error i h s f = SysExit c
  ↔ c = 1 ∧ truthy_str s = true ∧ (i = 0 ∨ truthy_str h = false).
Proof.
  unfold _make_client. destruct (truthy_str s).
  - destruct ((i =? 0) || negb (truthy_str h)) eqn:E.
    + split; [|by intros (-> & _)]. intros [= <-].
      apply orb_true_iff in E as [Hi%Z.eqb_eq | Hh%negb_true_iff]; auto.
    + split; [by intros ?%new_client_not_exit|].
      intros (_ & _ & [->|Hh]); [done|].
      by rewrite Hh, orb_true_r in E.
  - destruct (negb (i =? 0) && truthy_str h);
      (split; [by intros ?%new_client_not_exit | by intros (_ & ? & _)]).
Qed.

(** Without a string session [_make_client] never exits.  With an API id
    and an API hash it builds the client on the session file, if that
    file can be opened.  Without one of them the last branch passes a
    zero id or an empty hash to [TelegramClient], which raises
    [ValueError]: that branch never yields a client. *)
Theorem make_client_file_session session_error i h s f :
  truthy_str s = false →
  _make_client session_error i h s f
  = if (i =? 0) || negb (truthy_str h) then Raised ValueError
    else match session_error (SessionFile f) with
         | Some e => Raised e
         | None => Made (mkTelegramClient (SessionFile f) i (default "" h))
         end.
Proof.
  intros Hs. unfold _make_client, new_client. rewrite Hs.
  destruct (Z.eqb_spec i 0) as [->|Hi].
  - cbn. by destruct h as [[|]|].
  - apply Z.eqb_neq in Hi. rewrite !Hi.
    destruct h as [[|a h]|]; cbn; rewrite ?Hi; cbn; try done;
      by destruct (session_error _).
Qed.

(** Without an API id no client comes out, even when the session file
    opens; with an id and a hash the client is built on that file. *)
Lemma make_client_file_session_witness :
  _make_client (λ _, None) 0 (Some "0123abcd") (Some "") "tgcf.session"
  = Raised ValueError
  ∧ _make_client (λ _, None) 12345 (Some "0123abcd") None "tgcf.session"
    = Made (mkTelegramClient (SessionFile "tgcf.session") 12345 "0123abcd").
Proof.
  split.
  - apply (make_client_file_session (λ _, None) 0 (Some "0123abcd")
             (Some "") "tgcf.session").
    reflexivity.
  - apply (make_client_file_session (λ _, None) 12345 (Some "0123abcd")
             None "tgcf.session").
    reflexivity.
Defined.

(** A client built on a string session always has that session string,
    non-empty, a non-zero API id and the non-empty API hash of the
    environment. *)
Theorem make_client_string_session session_error i h s f c x :
  _make_client session_error i h s f = Made c →
  session c = StringSession x →
  s = Some x ∧ x ≠ "" ∧ api_id c = i ∧ i ≠ 0
  ∧ h = Some (api_hash c) ∧ api_hash c ≠ "".
Proof.
  unfold _make_client. destruct s as [[|a s]|]; cbn [truthy_str].
  1,3: destruct (negb (i =? 0) && truthy_str h);
       intros (-> & _)%new_client_made; cbn [session]; done.
  destruct ((i =? 0) || negb (truthy_str h)) eqn:E; [done|].
  intros (-> & Hi & Hh & _)%new_client_made. cbn [session api_id api_hash].
  intros [= <-]. apply orb_false_elim in E as [_ E%negb_false_iff].
  by destruct h as [[|b h]|].
Qed.

Lemma make_client_string_session_witness :
  Some "1BVtsOK4Bu" = Some "1BVtsOK4Bu" ∧ "1BVtsOK4Bu" ≠ ""
  ∧ api_id (mkTelegramClient (StringSession "1BVtsOK4Bu") 12345 "0123abcd")
    = 12345
  ∧ 12345 ≠ 0
  ∧ Some "0123abcd"
    = Some (api_hash (mkTelegramClient (StringSession "1BVtsOK4Bu") 12345
                        "0123abcd"))
  ∧ api_hash (mkTelegramClient (StringSession "1BVtsOK4Bu") 12345 "0123abcd")
    ≠ "".
Proof.
  apply (make_client_string_session (λ _, None) 12345 (Some "0123abcd")
           (Some "1BVtsOK4Bu") "tgcf.session"
           (mkTelegramClient (StringSession "1BVtsOK4Bu") 12345 "0123abcd")
           "1BVtsOK4Bu"); reflexivity.
Defined.

(** At import time: when [TGCF_SESSION] is set and [API_ID] is unset or
    empty, the API id is 0 and the process exits with status 1, whatever
    [API_HASH] is. *)
Theorem client_exits_without_api_id session_error env s :
  env !! "TGCF_SESSION" = Some s → s ≠ "" →
  (env !! "API_ID" = None ∨ env !! "API_ID" = Some "") →
  client session_error env = Some (SysExit 1).
Proof.
  intros Hs Hne Hid. unfold client.
  assert (API_ID env = Some 0) as ->.
  { unfold API_ID. by destruct Hid as [->| ->]. }
  cbn. unfold _make_client, SESSION_STR. rewrite Hs.
  by destruct s.
Qed.

Lemma client_exits_without_api_id_witness :
  client (λ _, None) session_only_env = Some (SysExit 1).
Proof.
  apply (client_exits_without_api_id (λ _, None) session_only_env
           "1BVtsOK4Bu");
    [reflexivity | discriminate | left; reflexivity].
Defined.

(** ** Handlers under failure *)

Section Handlers.

Variable raises : list Op → Op → bool.

(** Every call made while handling a destination is addressed to it. *)
Lemma on_album_dest_addressed copy_mode forward_mode items caption d h :
  ∃ ops,
    on_album_dest raises copy_mode forward_mode items caption d h
    = (h ++ ops, inr ())
    ∧ Forall (λ op, op_dest op = Some d) ops.
Proof.
  assert (Forall (λ op, op_dest op = Some d) (imap (fallback_op d caption) items))
    as Hfb.
  { apply Forall_forall. intros op Hop.
    apply list_elem_of_lookup in Hop as [i Hi].
    rewrite list_lookup_imap in Hi.
    destruct (items !! i); [|done]. by injection Hi as <-. }
  assert (∃ ops r, album_attempt raises copy_mode forward_mode items caption d h
                   = (h ++ ops, r)
                   ∧ Forall (λ op, op_dest op = Some d) ops)
    as (ops & r & Hrun & Hops).
  { unfold album_attempt. destruct (forward_mode && negb copy_mode).
    - unfold call. eexists [_], _. split; [reflexivity|]. by repeat constructor.
    - destruct (send_album_copy_run raises d items caption h)
        as (opss & r & Hrun & Hpre & _).
      exists (concat opss), r. split; [done|].
      apply Forall_concat. eapply Forall2_right; [exact Hpre|].
      intros k ops (n & -> & _). apply Forall_forall. intros op Hop.
      by apply list_elem_of_fmap in Hop as (j & -> & _). }
  unfold on_album_dest, try_except. rewrite Hrun. destruct r as [e|[]].
  - rewrite album_fallback_run, <- app_assoc. eexists. split; [done|].
    by apply Forall_app.
  - by exists ops.
Qed.

End Handlers.

(** What [on_new_message] attempts, and what it returns, is the same
    for every transport: a call that raises changes neither the calls
    made to the other destinations nor the outcome of the handler, which
    never raises. *)
Theorem single_failure_isolated raises from_to_ids copy_mode forward_mode
    event h :
  on_new_message raises from_to_ids copy_mode forward_mode event h
  = on_new_message never_raises from_to_ids copy_mode forward_mode event h
  ∧ (on_new_message raises from_to_ids copy_mode forward_mode event h).2
    = inr ().
Proof.
  destruct (truthy_id (Message.grouped_id (NewMessage.message event))) eqn:Hg.
  - unfold on_new_message. by rewrite Hg.
  - by rewrite !on_new_message_ungrouped.
Qed.

(** Both handlers call the client only to deliver, and only to chats
    listed as destinations of the chat the event comes from; an event
    from a chat with no destinations causes no call. *)
Theorem handlers_stay_in_routes raises from_to_ids copy_mode forward_mode h :
  (∀ event, ∃ ops,
     (on_new_message raises from_to_ids copy_mode forward_mode event h).1
     = h ++ ops
     ∧ Forall (λ op, ∃ d, op_dest op = Some d
                 ∧ d ∈ default [] (from_to_ids !! NewMessage.chat_id event))
         ops)
  ∧ (∀ event, ∃ ops,
       (on_album raises from_to_ids copy_mode forward_mode event h).1
       = h ++ ops
       ∧ Forall (λ op, ∃ d, op_dest op = Some d
                   ∧ d ∈ default [] (from_to_ids !! Album.chat_id event))
           ops).
Proof.
  split; intros event.
  - destruct (truthy_id (Message.grouped_id (NewMessage.message event))) eqn:Hg.
    + exists []. unfold on_new_message. rewrite Hg. cbn.
      by rewrite app_nil_r.
    + rewrite on_new_message_ungrouped by done. eexists. split; [done|].
      apply Forall_forall. intros op Hop.
      apply list_elem_of_fmap in Hop as (d & -> & Hd). exists d.
      split; [|done]. by destruct (copy_mode && negb forward_mode).
  - rewrite on_album_for_each.
    destruct (for_each_segments
                (on_album_dest raises copy_mode forward_mode
                   (Album.messages event)
                   (album_caption (Album.messages event)))
                (λ d ops, Forall (λ op, op_dest op = Some d) ops)
                (default [] (from_to_ids !! Album.chat_id event)) h)
      as (segs & -> & Hsegs).
    { intros d h'. apply on_album_dest_addressed. }
    exists (concat segs). split; [done|].
    apply Forall_concat. clear -Hsegs.
    induction Hsegs as [|d seg ds segs Hseg _ IH]; constructor.
    + eapply Forall_impl; [exact Hseg|]. intros op Hop. exists d.
      split; [done|]. apply elem_of_cons. by left.
    + eapply Forall_impl; [exact IH|]. intros seg' Hseg'.
      eapply Forall_impl; [exact Hseg'|]. intros op (d' & Hd' & Hin).
      exists d'. split; [done|]. apply elem_of_cons. by right.
Qed.

(** ** Groups: forward mode, empty groups, the shape of a copy *)

(** In forward mode (forward enabled, copy disabled) [on_album] deals
    with the destinations one after the other.  For each it asks for one
    forward of the whole group; exactly when that call raises, it goes on
    to send every item on its own to that destination; then it moves on
    to the next destination.  When no call raises, the group is forwarded
    once to each destination and nothing else happens. *)
Theorem album_forward_mode raises from_to_ids event h :
  let items := Album.messages event in
  let dests := default [] (from_to_ids !! Album.chat_id event) in
  (∃ segs,
     on_album raises from_to_ids false true event h
     = (h ++ concat segs, inr ())
     ∧ length segs = length dests
     ∧ ∀ (k : nat) d seg,
         dests !! k = Some d → segs !! k = Some seg →
         seg = ForwardTo d (Message.id <$> items)
               :: (if raises (h ++ concat (take k segs))
                        (ForwardTo d (Message.id <$> items))
                   then imap (fallback_op d (album_caption items)) items
                   else []))
  ∧ on_album never_raises from_to_ids false true event h
    = (h ++ ((λ d, ForwardTo d (Message.id <$> items)) <$> dests), inr ()).
Proof.
  intros items dests. split.
  - rewrite on_album_for_each.
    apply (for_each_segments_at
             (on_album_dest raises false true items (album_caption items))
             (λ h' d seg,
                seg = ForwardTo d (Message.id <$> items)
                      :: (if raises h' (ForwardTo d (Message.id <$> items))
                          then imap (fallback_op d (album_caption items)) items
                          else []))).
    intros d h'.
    unfold on_album_dest, try_except, album_attempt. cbn [andb negb].
    unfold call. destruct (raises h' _).
    + rewrite album_fallback_run, <- app_assoc. eexists. by split.
    + eexists. by split.
  - rewrite on_album_for_each. fold items dests. generalize dests h.
    clear. intros dests. induction dests as [|d dests IH]; intros h.
    + cbn. by rewrite app_nil_r.
    + cbn [for_each]. rewrite bind_run.
      unfold on_album_dest at 1, try_except, album_attempt. cbn.
      rewrite IH, <- app_assoc. done.
Qed.

(** With two destinations and a transport that refuses the first call
    only: the forward to the first destination fails and its items are
    sent one by one; the forward to the second goes through and nothing
    more is sent there. *)
Example forward_fails_at_first_destination :
  on_album first_call_raises routes_1_to_7_8 false true photo_and_pdf []
  = ([ForwardTo 7 [1; 2];
      SendFile 7 (OneFile (Some (MediaRef 1))) (Some "hi") true;
      SendFile 7 (OneFile (Some (MediaRef 2))) None true;
      ForwardTo 8 [1; 2]], inr ()).
Proof. reflexivity. Qed.

Lemma album_buckets_no_media items :
  Forall (λ m, Message.media m = None) items → album_buckets items = [].
Proof.
  intros Hall. rewrite <- album_buckets_drops_no_media.
  rewrite filter_none; [done|].
  intros m Hm%(proj1 (Forall_forall _ _) Hall). unfold has_media.
  rewrite Hm. simpl. tauto.
Qed.

(** A group none of whose items has media, handled on the copy path
    (that is, unless forward alone is enabled), causes no call at all and
    no error: its texts are not delivered. *)
Theorem album_without_media_is_dropped raises from_to_ids copy_mode
    forward_mode event h :
  forward_mode && negb copy_mode = false →
  Forall (λ m, Message.media m = None) (Album.messages event) →
  on_album raises from_to_ids copy_mode forward_mode event h = (h, inr ()).
Proof.
  intros Hmode Hall. rewrite on_album_for_each.
  generalize (default [] (from_to_ids !! Album.chat_id event)).
  intros dests. revert h. induction dests as [|d dests IH]; intros h; [done|].
  cbn [for_each]. rewrite bind_run.
  unfold on_album_dest at 1, try_except, album_attempt, _send_album_copy.
  rewrite Hmode, album_buckets_no_media by done. cbn. apply IH.
Qed.

Lemma album_without_media_is_dropped_witness :
  on_album always_raises routes_1_to_7 true false two_notes [] = ([], inr ()).
Proof.
  apply (album_without_media_is_dropped always_raises routes_1_to_7 true
           false two_notes []); [reflexivity|].
  repeat constructor.
Defined.

Lemma sent_all_count d caption files ops :
  sent_all_for d caption files ops →
  ops = bucket_uploads d caption files ((length files + 9) / 10)%nat.
Proof.
  intros (n & -> & Hidx & Hlen). f_equal.
  apply (Nat.div_unique _ _ _ (length files + 9 - 10 * n)%nat).
  - destruct n as [|n]; [lia|]. specialize (Hidx n ltac:(lia)). lia.
  - destruct n as [|n]; [lia|]. specialize (Hidx n ltac:(lia)). lia.
Qed.

(** When [_send_album_copy] returns normally, its calls are exactly
    these: class by class in first-seen order, the media of the class in
    original order, cut into consecutive batches of ten with a shorter
    last one; a class of [n] media takes [(n + 9) / 10] uploads, and the
    [j]-th of them holds [min 10 (n - 10 j)] media. *)
Theorem album_copy_uploads raises d items caption h :
  (_send_album_copy raises d items caption h).2 = inr () →
  (_send_album_copy raises d items caption h).1
  = h ++ album_uploads d items caption
  ∧ ∀ k j op,
      bucket_uploads d caption (media_files (bucket_of items k))
        ((length (bucket_of items k) + 9) / 10)%nat !! j = Some op →
      length (batch_files op)
      = (10 `min` (length (bucket_of items k) - 10 * j))%nat.
Proof.
  intros Hok. split.
  - destruct (send_album_copy_run raises d items caption h)
      as (opss & r & Hrun & _ & Hall).
    rewrite Hrun in Hok |- *. cbn [fst snd] in *. f_equal.
    specialize (Hall Hok). unfold album_uploads. f_equal.
    clear -Hall. induction Hall as [|k ops ks opss Hk _ IH]; [done|].
    rewrite fmap_cons. f_equal; [|exact IH].
    rewrite (sent_all_count _ _ _ _ Hk). do 2 f_equal.
    pose proof (f_equal length (bucket_media items k)) as Hlen.
    rewrite !length_fmap in Hlen. by rewrite Hlen.
  - intros k j op Hop. unfold bucket_uploads in Hop.
    rewrite list_lookup_fmap in Hop.
    destruct (seq 0 _ !! j) as [j'|] eqn:Hj; [|done].
    apply lookup_seq in Hj as [-> _]. injection Hop as <-.
    unfold part_op. cbn [batch_files].
    rewrite length_take, length_drop.
    pose proof (f_equal length (bucket_media items k)) as Hlen.
    rewrite !length_fmap in Hlen. rewrite Hlen. lia.
Qed.

Lemma album_copy_uploads_witness :
  (_send_album_copy never_raises 7 twelve_photos (Some "hi") []).1
  = [] ++ album_uploads 7 twelve_photos (Some "hi")
  ∧ ∀ k j op,
      bucket_uploads 7 (Some "hi") (media_files (bucket_of twelve_photos k))
        ((length (bucket_of twelve_photos k) + 9) / 10)%nat !! j = Some op →
      length (batch_files op)
      = (10 `min` (length (bucket_of twelve_photos k) - 10 * j))%nat.
Proof.
  apply (album_copy_uploads never_raises 7 twelve_photos (Some "hi") []).
  reflexivity.
Defined.

(** Twelve photos go out as a batch of ten with the caption and a batch
    of two without. *)
Example twelve_photos_uploads :
  album_uploads 7 twelve_photos (Some "hi")
  = [SendFile 7 (Files (MediaRef <$> seqZ 1 10)) (Some "hi") true;
     SendFile 7 (Files [MediaRef 11; MediaRef 12]) None true].
Proof. reflexivity. Qed.

Lemma bucket_kind_range m : _bucket_kind m ∈ ["photo"; "video"; "doc"].
Proof.
  unfold _bucket_kind. destruct (Message.photo m); [set_solver|].
  destruct (startswith _ _); set_solver.
Qed.

(** The dict built by [_send_album_copy] has at most three buckets, with
    distinct keys among "photo", "video" and "doc"; no bucket is empty,
    and every item of a bucket has media and is of the bucket's class. *)
Theorem album_buckets_shape items :
  NoDup (album_buckets items).*1
  ∧ (length (album_buckets items) ≤ 3)%nat
  ∧ Forall (λ kb : string * list Message.t,
              kb.1 ∈ ["photo"; "video"; "doc"]
              ∧ kb.2 ≠ []
              ∧ Forall (λ m, is_Some (Message.media m)
                             ∧ _bucket_kind m = kb.1) kb.2)
      (album_buckets items).
Proof.
  rewrite album_buckets_spec.
  assert ((((λ k, (k, bucket_of items k)) <$> kinds_seen items).*1
           = kinds_seen items)) as Hkeys.
  { rewrite <- list_fmap_compose. apply list_fmap_id. }
  assert (∀ k, k ∈ kinds_seen items → k ∈ ["photo"; "video"; "doc"]) as Hrange.
  { intros k Hk. unfold kinds_seen in Hk. rewrite first_seen_elem in Hk.
    apply list_elem_of_fmap in Hk as (m & -> & _). apply bucket_kind_range. }
  split; [|split].
  - rewrite Hkeys. apply first_seen_NoDup.
  - rewrite length_fmap.
    apply (submseteq_length _ ["photo"; "video"; "doc"]), NoDup_submseteq;
      [apply first_seen_NoDup | exact Hrange].
  - apply Forall_fmap, Forall_forall. intros k Hk. cbn.
    split; [by apply Hrange|]. split.
    + pose proof (kinds_seen_nonempty items) as Hne.
      rewrite Forall_forall in Hne. specialize (Hne k Hk).
      intros Hnil. apply Hne. by rewrite Hnil.
    + eapply Forall_impl; [apply bucket_of_Forall|].
      intros m [Hm Hkind]. split; [|done].
      unfold has_media in Hm. by destruct (Message.media m).
Qed.

(** ** The caption *)

(** [album_caption] is [None] exactly when no item has a non-empty text;
    otherwise it is the non-empty text of the first item that has one. *)
Theorem album_caption_spec items :
  (album_caption items = None
   ↔ Forall (λ m, truthy_str (Message.message m) = false) items)
  ∧ ∀ s, album_caption items = Some s →
      s ≠ ""
      ∧ ∃ pre m rest,
          items = pre ++ m :: rest
          ∧ Forall (λ m', truthy_str (Message.message m') = false) pre
          ∧ Message.message m = Some s.
Proof.
  induction items as [|m items [IHn IHs]]; cbn [album_caption].
  - split; [by split | done].
  - destruct (truthy_str (Message.message m)) eqn:Hm.
    + split.
      * split; [by destruct (Message.message m) as [[|]|]|].
        intros Hall. apply Forall_cons in Hall as [Hm' _]. congruence.
      * intros s Hs. split; [intros ->; by rewrite Hs in Hm|].
        exists [], m, items. by repeat split.
    + split.
      * rewrite IHn. split; [by constructor | by intros [_ ?]%Forall_cons].
      * intros s Hs. destruct (IHs s Hs) as (Hne & pre & m' & rest & -> & Hpre & Hm').
        split; [done|]. exists (m :: pre), m', rest.
        split; [done|]. split; [by constructor | done].
Qed.

(** In the fallback only the call for the first item of the group can
    carry the caption, whether or not that call raises: every later call
    is made without one. *)
Theorem album_fallback_caption raises d items caption h :
  ∃ ops,
    album_fallback raises d (enumerate items) caption h = (h ++ ops, inr ())
    ∧ length ops = length items
    ∧ batch_caption <$> ops
      = match items with
        | [] => []
        | _ :: rest => caption :: replicate (length rest) None
        end.
Proof.
  rewrite album_fallback_run. eexists. split; [done|].
  split; [apply length_imap|].
  destruct items as [|m rest]; [done|]. rewrite imap_cons.
  cbn [fmap list_fmap fallback_op batch_caption]. f_equal.
  generalize 0%nat. induction rest as [|m' rest IH]; intros n; [done|].
  rewrite imap_cons. cbn [fmap list_fmap length replicate]. f_equal.
  apply (IH (S n)).
Qed.
